(** * remix-express: the Express adapter of Remix

    A shallow embedding of [packages/remix-express/server.ts] and the
    properties of its four functions: [createRemixHeaders],
    [createRemixRequest], [sendRemixResponse] and [createRequestHandler].

    JavaScript objects used as dictionaries are finite maps, exceptions are
    explicit completions, and the Express response object, which the adapter
    mutates, is a state that is threaded through the calls.  The classes the
    adapter builds on (the header container and the request of the fetch
    library, the response of Express and Node) are modelled as far as the
    adapter meets them: the names they normalise, the input they refuse. *)

From Stdlib Require Import ZArith Ascii String.
From stdpp Require Import gmap strings list fin_maps sorting.

Local Open Scope string_scope.
Local Open Scope Z_scope.

(** ** JavaScript values, completions and promises *)

(** The values that cross the adapter untouched: thrown errors, load
    contexts, and whatever was passed for an option.  Functions are not part
    of this universe: [typeof v === "function"] is false for every [v]. *)
Inductive JsValue : Type :=
  | JsUndefined
  | JsNull
  | JsBoolean (b : bool)
  | JsNumber (n : Z)
  | JsString (s : string)
  | JsError (name message : string).

(** The completion of a statement or call: it returns or it throws. *)
Inductive Completion (A : Type) : Type :=
  | Normal (a : A)
  | Throw (error : JsValue).
Arguments Normal {A} a.
Arguments Throw {A} error.

(** A promise, looked at where it is awaited: fulfilled, rejected, or
    never settled. *)
Inductive Promise (A : Type) : Type :=
  | Fulfilled (a : A)
  | Rejected (reason : JsValue)
  | Pending.
Arguments Fulfilled {A} a.
Arguments Rejected {A} reason.
Arguments Pending {A}.

(** ** Strings

    A string is a sequence of code units below 256.  Case mapping is the
    one of the ASCII letters, which is what [toLowerCase] and [toUpperCase]
    do on ASCII strings. *)

Definition code (c : ascii) : Z := Z.of_N (N_of_ascii c).

Definition between (low high : Z) (c : ascii) : bool :=
  (low <=? code c) && (code c <=? high).

Definition is_upper (c : ascii) : bool := between 65 90 c.
Definition is_lower (c : ascii) : bool := between 97 122 c.
Definition is_digit (c : ascii) : bool := between 48 57 c.
Definition is_alnum (c : ascii) : bool :=
  is_upper c || is_lower c || is_digit c.

Definition char_toLowerCase (c : ascii) : ascii :=
  if is_upper c then ascii_of_N (N_of_ascii c + 32) else c.

Definition char_toUpperCase (c : ascii) : ascii :=
  if is_lower c then ascii_of_N (N_of_ascii c - 32) else c.

Fixpoint String_map (f : ascii → ascii) (s : string) : string :=
  match s with
  | EmptyString => EmptyString
  | String c rest => String (f c) (String_map f rest)
  end.

Definition toLowerCase : string → string := String_map char_toLowerCase.
Definition toUpperCase : string → string := String_map char_toUpperCase.

Fixpoint String_forallb (p : ascii → bool) (s : string) : bool :=
  match s with
  | EmptyString => true
  | String c rest => p c && String_forallb p rest
  end.

(** Membership of a character in a string of characters. *)
Fixpoint one_of (chars : string) (c : ascii) : bool :=
  match chars with
  | EmptyString => false
  | String d rest => Ascii.eqb c d || one_of rest c
  end.

Definition is_ascii (s : string) : bool := String_forallb (between 0 127) s.

(** [Array.prototype.join] on an array of strings. *)
Fixpoint Array_join (separator : string) (a : list string) : string :=
  match a with
  | [] => ""
  | [s] => s
  | s :: rest => s +:+ separator +:+ Array_join separator rest
  end.

(** ** HTTP header names and values

    The two tests that the header container of the fetch library and
    [setHeader] of Node share: a name is a non-empty token, a value has no
    control character but the tab. *)

Definition is_token_char (c : ascii) : bool :=
  is_alnum c || one_of "^_`-!#$%&'*+.|~" c.

Definition legal_name (name : string) : bool :=
  negb (String.eqb name "") && String_forallb is_token_char name.

Definition is_value_char (c : ascii) : bool :=
  (code c =? 9) || between 32 126 c || between 128 255 c.

Definition legal_value (value : string) : bool :=
  String_forallb is_value_char value.

(** ** Statements that mutate an object and may throw *)

Definition M (S A : Type) : Type := S → S * Completion A.

Definition mret {S A} (a : A) : M S A := λ s, (s, Normal a).

Definition mbind {S A B} (m : M S A) (k : A → M S B) : M S B :=
  λ s, match m s with
       | (s', Normal a) => k a s'
       | (s', Throw error) => (s', Throw error)
       end.

(** A computation that touches no state. *)
Definition lift {S A} (c : Completion A) : M S A := λ s, (s, c).

(** A statement that only updates the state. *)
Definition modify {S} (f : S → S) : M S unit := λ s, (f s, Normal tt).

(** [for (let x of xs) { body(x) }] *)
Fixpoint for_of {S A} (xs : list A) (body : A → M S unit) : M S unit :=
  match xs with
  | [] => mret tt
  | x :: rest => mbind (body x) (λ _, for_of rest body)
  end.

Declare Scope js_scope.
Delimit Scope js_scope with js.
Notation "'let*' x ':=' m 'in' k" := (mbind m (λ x, k))
  (at level 10, x pattern, m at level 100, k at level 200) : js_scope.
Notation "m ';;;' k" := (mbind m (λ _, k))
  (at level 100, k at level 200, right associativity) : js_scope.

(** ** The body of an [async] function

    It runs on the state like a statement and ends as the promise the
    function returns: fulfilled when the body returns, rejected when it
    throws, pending when it waits for a promise that never settles. *)

Definition Async (S A : Type) : Type := S → S * Promise A.

Definition abind {S A B} (m : Async S A) (k : A → Async S B) : Async S B :=
  λ s, match m s with
       | (s', Fulfilled a) => k a s'
       | (s', Rejected reason) => (s', Rejected reason)
       | (s', Pending) => (s', Pending)
       end.

(** A synchronous statement inside the body. *)
Definition sync {S A} (m : M S A) : Async S A :=
  λ s, match m s with
       | (s', Normal a) => (s', Fulfilled a)
       | (s', Throw error) => (s', Rejected error)
       end.

(** [await call(...)]: the call may throw before it returns its promise;
    otherwise the body goes on with the value the promise is fulfilled
    with, throws the reason it is rejected with, or waits for ever. *)
Definition await {S A} (call : Completion (Promise A)) : Async S A :=
  λ s, match call with
       | Throw error => (s, Rejected error)
       | Normal promise => (s, promise)
       end.

(** [try { body } catch (error) { handler(error) }] *)
Definition try_catch {S A} (body : Async S A) (handler : JsValue → Async S A)
    : Async S A :=
  λ s, match body s with
       | (s', Rejected error) => handler error s'
       | outcome => outcome
       end.

Declare Scope async_scope.
Delimit Scope async_scope with async.
Notation "'let*' x ':=' m 'in' k" := (abind m (λ x, k))
  (at level 10, x pattern, m at level 100, k at level 200) : async_scope.

(** ** Node streams and buffers *)

Abbreviation Buffer := (list Byte.byte).

(** A readable stream is known by the bytes it yields.  [PassThrough] is
    the transform stream the adapter creates; it yields what is piped in. *)
Inductive Readable : Type :=
  | IncomingStream (payload : Buffer)
  | PassThrough (highWaterMark : Z) (source : Readable).

Fixpoint stream_bytes (r : Readable) : Buffer :=
  match r with
  | IncomingStream payload => payload
  | PassThrough _ source => stream_bytes source
  end.

(** [Object.keys(o)]: the own property names of [o], each once.  They
    come in the order of the map, which need not be the order JavaScript
    keeps; the order shows only where two names that differ in case alone
    meet in a header container, or where more than one name is refused. *)
Definition Object_keys {V} (o : gmap string V) : list string :=
  (map_to_list o).*1.

(** ** The Fetch-style interchange types of [@remix-run/node] *)

(** A header container is known by the entries its iteration yields. *)
Record Headers : Type := mkHeaders { Headers_entries : list (string * string) }.

(** The store inside a container: under the lower-case form of a name, the
    name as it first came and the values appended to it, oldest first. *)
Abbreviation HeaderStore := (gmap string (string * list string))
  (only parsing).

(** [headers.append(name, value)] *)
Definition Headers_append (store : HeaderStore) (name value : string)
    : Completion HeaderStore :=
  if negb (legal_name name) then
    Throw (JsError "TypeError" (name +:+ " is not a legal HTTP header name"))
  else if negb (legal_value value) then
    Throw (JsError "TypeError" (value +:+ " is not a legal HTTP header value"))
  else
    Normal
      match store !! toLowerCase name with
      | Some (first, values) =>
          <[toLowerCase name := (first, (values ++ [value])%list)]> store
      | None => <[toLowerCase name := (name, [value])]> store
      end.

(** The constructor's loop over the properties of [init]. *)
Fixpoint Headers_append_all (store : HeaderStore)
    (properties : list (string * string)) : Completion HeaderStore :=
  match properties with
  | [] => Normal store
  | (name, value) :: rest =>
      match Headers_append store name value with
      | Normal store' => Headers_append_all store' rest
      | Throw error => Throw error
      end
  end.

(** Iteration: the names sorted as they first came, each in lower case
    with its values joined. *)
Definition Headers_of_store (store : HeaderStore) : Headers :=
  mkHeaders
    ((λ '(first, values), (toLowerCase first, Array_join ", " values))
       <$> merge_sort (λ x y, String.le x.1 y.1) (map_to_list store).*2).

(** [new Headers(init)] for a plain object [init]: every property is
    appended; a name or value that is not legal makes it throw. *)
Definition Headers_new (init : gmap string string) : Completion Headers :=
  match Headers_append_all ∅ (map_to_list init) with
  | Normal store => Normal (Headers_of_store store)
  | Throw error => Throw error
  end.

(** [headers.get(name)] for a legal [name]. *)
Definition Headers_get (name : string) (h : Headers) : option string :=
  (list_to_map (Headers_entries h) : gmap string string) !! toLowerCase name.

Record RequestInit : Type := mkRequestInit {
  init_method : string;
  init_headers : Headers;
  init_body : option Readable
}.

Record Request : Type := mkRequest {
  request_url : string;
  request_method : string;
  request_headers : Headers;
  request_body : option Readable
}.

(** [new Request(url, init)]: the method is put in upper case ([GET] when
    it is empty), and a body on a [GET] or [HEAD] request is refused. *)
Definition Request_new (url : string) (init : RequestInit)
    : Completion Request :=
  let method :=
    toUpperCase (if String.eqb (init_method init) "" then "GET"
                 else init_method init) in
  match init_body init with
  | Some _ =>
      if String.eqb method "GET" || String.eqb method "HEAD"
      then Throw (JsError "TypeError"
                    "Request with GET/HEAD method cannot have body")
      else Normal {| request_url := url; request_method := method;
                     request_headers := init_headers init;
                     request_body := init_body init |}
  | None =>
      Normal {| request_url := url; request_method := method;
                request_headers := init_headers init;
                request_body := None |}
  end.

(** The body of a response: a buffer, a stream, or nothing at all. *)
Inductive ResponseBody : Type :=
  | BodyBuffer (bytes : Buffer)
  | BodyStream (stream : Readable)
  | BodyNull.

Record Response : Type := mkResponse {
  response_status : Z;
  response_headers : Headers;
  response_body : ResponseBody
}.

(** ** The URL class

    On an absolute path of plain characters, with or without a query of
    plain characters, resolved against an [http] or [https] origin whose
    host is made of labels of lower-case letters, the URL is the origin
    followed by the path.  Every other input is left to the URL class of
    the platform, which the development takes as given. *)

Fixpoint split_on (separator : ascii) (s : string) : list string :=
  match s with
  | EmptyString => [EmptyString]
  | String c rest =>
      if Ascii.eqb c separator then EmptyString :: split_on separator rest
      else match split_on separator rest with
           | segment :: segments => String c segment :: segments
           | [] => [String c EmptyString]
           end
  end.

(** Labels of lower-case letters with single dots between them. *)
Fixpoint plain_host_from (label_start : bool) (host : string) : bool :=
  match host with
  | EmptyString => negb label_start
  | String c rest =>
      if is_lower c then plain_host_from false rest
      else Ascii.eqb c "."%char && negb label_start
           && plain_host_from true rest
  end.

Definition plain_host (host : string) : bool := plain_host_from true host.

Definition is_path_char (c : ascii) : bool := is_alnum c || one_of "-_.~" c.
Definition is_query_char (c : ascii) : bool := is_alnum c || one_of "-_.~=&" c.

Definition plain_segment (segment : string) : bool :=
  String_forallb is_path_char segment
  && negb (String.eqb segment ".") && negb (String.eqb segment "..").

(** [/segment/segment...], the first segment not empty unless it is the
    only one, so that the path does not start with two slashes. *)
Definition plain_path (path : string) : bool :=
  match split_on "/"%char path with
  | EmptyString :: first :: segments =>
      plain_segment first && forallb plain_segment segments
      && (negb (String.eqb first "") || bool_decide (segments = []))
  | _ => false
  end.

(** The part of [s] before the first [c], and the part after it if there
    is one. *)
Fixpoint cut_at (c : ascii) (s : string) : string * option string :=
  match s with
  | EmptyString => (EmptyString, None)
  | String d rest =>
      if Ascii.eqb d c then (EmptyString, Some rest)
      else let '(before, after) := cut_at c rest in (String d before, after)
  end.

Definition plain_reference (input : string) : bool :=
  match cut_at "?"%char input with
  | (path, None) => plain_path path
  | (path, Some query) =>
      plain_path path && negb (String.eqb query "")
      && String_forallb is_query_char query
  end.

(** What is left of [s] after [prefix], if [s] starts with it. *)
Fixpoint strip_prefix (prefix s : string) : option string :=
  match prefix, s with
  | EmptyString, _ => Some s
  | String c prefix', String d s' =>
      if Ascii.eqb c d then strip_prefix prefix' s' else None
  | String _ _, EmptyString => None
  end.

Definition plain_origin (base : string) : bool :=
  match strip_prefix "http://" base, strip_prefix "https://" base with
  | Some host, _ | None, Some host => plain_host host
  | None, None => false
  end.

(** ** What the module imports *)

(** [URL_other] is the URL class of the platform outside the plain inputs
    above: it gives the serialised URL or throws.
    [Express_contentType] is what Express makes of the value of a
    [Content-Type] header before it is stored: the value, with the default
    charset of its media type appended when it names none.
    [createRemixRequestHandler] is the framework's handler factory: the
    handler it returns may throw before it returns a promise, and the
    promise may be rejected or stay pending. *)
Class Imports : Type := {
  URL_other : string → string → Completion string;
  Express_contentType : string → string;
  ServerBuild : Type;
  createRemixRequestHandler :
    ServerBuild → option string → bool →
    Request → JsValue → Completion (Promise Response)
}.

(** [process.env] *)
Abbreviation ProcessEnv := (gmap string string) (only parsing).

(** [!!process.env.NAME]: set, and not the empty string. *)
Definition env_flag (env : ProcessEnv) (name : string) : bool :=
  match env !! name with
  | Some value => negb (String.eqb value "")
  | None => false
  end.

(** ** The Express request and response *)

(** A value of [req.headers]: [string | string[] | undefined]. *)
Inductive HeaderValue : Type :=
  | HString (s : string)
  | HArray (a : list string)
  | HUndefined.

Record ExpressRequest : Type := mkExpressRequest {
  req_protocol : string;
  req_hostname : string;
  req_url : string;
  req_method : string;
  req_headers : gmap string HeaderValue;
  req_payload : Buffer
}.

(** The response object under construction: the status and headers set so
    far (headers under their lower-case names), the head that went out, if
    it did, with the status and headers it carried, the chunks handed over
    for the body, whether the response was ended, and the streams piped
    into it. *)
Record ExpressResponse : Type := mkExpressResponse {
  res_statusCode : Z;
  res_headers : gmap string string;
  res_head : option (Z * gmap string string);
  res_written : Buffer;
  res_ended : bool;
  res_piped : list Readable
}.

(** A response nothing has touched yet. *)
Definition fresh_response : ExpressResponse :=
  {| res_statusCode := 200; res_headers := ∅; res_head := None;
     res_written := []; res_ended := false; res_piped := [] |}.

(** [req.pipe(destination)] returns the destination, now fed by [req]. *)
Definition req_pipe (req : ExpressRequest) (highWaterMark : Z) : Readable :=
  PassThrough highWaterMark (IncomingStream (req_payload req)).

(** [res.status(code)] *)
Definition res_status (code : Z) : M ExpressResponse unit :=
  modify (λ res, {| res_statusCode := code;
                    res_headers := res_headers res;
                    res_head := res_head res;
                    res_written := res_written res;
                    res_ended := res_ended res;
                    res_piped := res_piped res |}).

(** [res.end(chunk)].  On a response whose head is still to go out, the
    head goes out first, and Node refuses a status outside 100..999; then
    the chunk is written and the response closed.  On a response that was
    ended already nothing happens. *)
Definition res_end (chunk : Buffer) : M ExpressResponse unit :=
  λ res,
    match res_head res with
    | None =>
        if (100 <=? res_statusCode res) && (res_statusCode res <=? 999)
        then ({| res_statusCode := res_statusCode res;
                 res_headers := res_headers res;
                 res_head := Some (res_statusCode res, res_headers res);
                 res_written := res_written res ++ chunk;
                 res_ended := true;
                 res_piped := res_piped res |}, Normal tt)
        else (res, Throw (JsError "RangeError" "Invalid status code"))
    | Some _ =>
        if res_ended res then (res, Normal tt)
        else ({| res_statusCode := res_statusCode res;
                 res_headers := res_headers res;
                 res_head := res_head res;
                 res_written := res_written res ++ chunk;
                 res_ended := true;
                 res_piped := res_piped res |}, Normal tt)
    end.

(** [stream.pipe(res)]: the stream is attached; its chunks arrive later. *)
Definition pipe_to_res (stream : Readable) : M ExpressResponse unit :=
  modify (λ res, {| res_statusCode := res_statusCode res;
                    res_headers := res_headers res;
                    res_head := res_head res;
                    res_written := res_written res;
                    res_ended := res_ended res;
                    res_piped := res_piped res ++ [stream] |}).

(** ** server.ts *)

Section Server.
Context `{Imports}.

(** [new URL(input, base)], kept as the string its [toString()] gives. *)
Definition URL_new (input base : string) : Completion string :=
  if plain_origin base && plain_reference input
  then Normal (base +:+ input)
  else URL_other input base.

(** The value [res.set] stores for a field. *)
Definition stored_value (field value : string) : string :=
  if String.eqb (toLowerCase field) "content-type"
  then Express_contentType value
  else value.

(** [res.set(field, value)]: Express completes a [Content-Type], Node
    refuses the call once the head went out, refuses a name or value that
    is not legal, and keeps the value under the lower-case name, in place
    of the one that was there. *)
Definition res_set (field value : string) : M ExpressResponse unit :=
  λ res,
    let value := stored_value field value in
    match res_head res with
    | Some _ =>
        (res, Throw (JsError "Error"
                       "Cannot set headers after they are sent to the client"))
    | None =>
        if negb (legal_name field) then
          (res, Throw (JsError "TypeError"
                         "Header name must be a valid HTTP token"))
        else if negb (legal_value value) then
          (res, Throw (JsError "TypeError"
                         "Invalid character in header content"))
        else
          ({| res_statusCode := res_statusCode res;
              res_headers := <[toLowerCase field := value]> (res_headers res);
              res_head := res_head res;
              res_written := res_written res;
              res_ended := res_ended res;
              res_piped := res_piped res |}, Normal tt)
    end.

(** What a caller passed as [getLoadContext]: a function, or some other
    value ([JsUndefined] when the option was left out).  The function
    receives the response object and may change it. *)
Inductive GetLoadContextOption : Type :=
  | LoadContextFunction
      (f : ExpressRequest → M ExpressResponse JsValue)
  | LoadContextValue (v : JsValue).

Record Options : Type := mkOptions {
  build : ServerBuild;
  getLoadContext : GetLoadContextOption;
  mode : option string;
  serverTiming : option bool
}.

(** [memo[key] = value] on a plain object, for a string [value]: the name
    [__proto__] is the prototype accessor, which ignores a string. *)
Definition object_set (memo : gmap string string) (key value : string)
    : gmap string string :=
  if String.eqb key "__proto__" then memo else <[key := value]> memo.

(** The [reduce] callback of [createRemixHeaders]. *)
Definition headers_step (requestHeaders : gmap string HeaderValue)
    (memo : gmap string string) (key : string) : gmap string string :=
  let value := requestHeaders !! key in
  match value with
  | Some (HString s) => object_set memo key s
  | Some (HArray a) => object_set memo key (Array_join "," a)
  | _ => memo
  end.

Definition createRemixHeaders (requestHeaders : gmap string HeaderValue)
    : Completion Headers :=
  Headers_new
    (foldl (headers_step requestHeaders) ∅ (Object_keys requestHeaders)).

Definition createRemixRequest (req : ExpressRequest) : Completion Request :=
  let origin := req_protocol req +:+ "://" +:+ req_hostname req in
  match URL_new (req_url req) origin with
  | Throw error => Throw error
  | Normal url =>
      match createRemixHeaders (req_headers req) with
      | Throw error => Throw error
      | Normal headers =>
          let init := {| init_method := req_method req;
                         init_headers := headers;
                         init_body := None |} in
          let init :=
            if negb (String.eqb (req_method req) "GET")
               && negb (String.eqb (req_method req) "HEAD")
            then {| init_method := init_method init;
                    init_headers := init_headers init;
                    init_body := Some (req_pipe req 16384) |}
            else init in
          Request_new url init
      end
  end.

(** Reading [pipe] of a null body throws a [TypeError]; the wording of
    its message is the engine's. *)
Definition sendRemixResponse (response : Response)
    : M ExpressResponse unit :=
  (res_status (response_status response) ;;;
   for_of (Headers_entries (response_headers response))
          (λ '(key, value), res_set key value) ;;;
   match response_body response with
   | BodyBuffer bytes => res_end bytes
   | BodyStream stream => pipe_to_res stream
   | BodyNull =>
       lift (Throw (JsError "TypeError"
                      "Cannot read properties of null (reading 'pipe')"))
   end)%js.

(** What the middleware callback works on: the response object and the
    calls made to [next], oldest first. *)
Record World : Type := mkWorld {
  world_res : ExpressResponse;
  world_next : list JsValue
}.

(** A part of the body that works on [res], run where [res] is part of
    the world. *)
Definition on_res {A} (m : Async ExpressResponse A) : Async World A :=
  λ w, match m (world_res w) with
       | (res', p) => ({| world_res := res'; world_next := world_next w |}, p)
       end.

(** [next(error)] *)
Definition next (error : JsValue) : M World unit :=
  modify (λ w, {| world_res := world_res w;
                  world_next := world_next w ++ [error] |}).

(** The load context of one request. *)
Definition loadContext_of (glc : GetLoadContextOption)
    (req : ExpressRequest) : M ExpressResponse JsValue :=
  match glc with
  | LoadContextFunction f => f req
  | LoadContextValue _ => mret JsUndefined
  end.

Section Handler.
Variable env : ProcessEnv.
Variable options : Options.

(** The handler bound once, with the defaults of [mode] and
    [serverTiming] read from the environment. *)
Definition handleRequest
    : Request → JsValue → Completion (Promise Response) :=
  createRemixRequestHandler (build options)
    (match mode options with
     | Some m => Some m
     | None => env !! "NODE_ENV"
     end)
    (match serverTiming options with
     | Some b => b
     | None => env_flag env "REMIX_SERVER_TIMING"
     end).

(** The body of the [try] block. *)
Definition try_block (req : ExpressRequest) : Async ExpressResponse unit :=
  (let* request := sync (lift (createRemixRequest req)) in
   let* loadContext := sync (loadContext_of (getLoadContext options) req) in
   let* response := await (handleRequest request loadContext) in
   sync (sendRemixResponse response))%async.

(** The callback [createRequestHandler] returns, applied to [req] and
    [res]; [next] appends to the world's list of forwarded errors. *)
Definition createRequestHandler (req : ExpressRequest) : Async World unit :=
  try_catch (on_res (try_block req)) (λ error, sync (next error)).
End Handler.
End Server.

(** ** What the properties are stated with *)

(** The text a header value translates to, if any. *)
Definition header_text (value : HeaderValue) : option string :=
  match value with
  | HString s => Some s
  | HArray a => Some (String.concat "," a)
  | HUndefined => None
  end.

(** A name as Node hands it over: a legal name, in lower case; the name
    [__proto__] is not among the own properties of its header object. *)
Definition Node_name (name : string) : bool :=
  legal_name name && String.eqb (toLowerCase name) name
  && negb (String.eqb name "__proto__").

(** Headers as Node hands them over: names as above, and every string, and
    every array once joined, a legal value. *)
Definition Node_headers (h : gmap string HeaderValue) : bool :=
  forallb
    (λ '(name, value),
       Node_name name
       && match header_text value with
          | Some text => legal_value text
          | None => true
          end)
    (map_to_list h).

(** A plain object fit for a header container that keeps its names: legal
    names in lower case, legal values. *)
Definition lower_legal (init : gmap string string) : bool :=
  forallb
    (λ '(name, value),
       legal_name name && String.eqb (toLowerCase name) name
       && legal_value value)
    (map_to_list init).

(** The entries of a list put into a map in order, the key and the value
    of each worked out from it; a later entry replaces an earlier one. *)
Definition insert_all {V W} (f : string → string) (g : string → V → W)
    (entries : list (string * V)) (m : gmap string W) : gmap string W :=
  foldl (λ m '(key, value), <[f key := g key value]> m) m entries.

Section Outcomes.
Context `{Imports}.

(** The headers of the response object after the entries were set in
    order. *)
Definition set_all (entries : list (string * string))
    (headers : gmap string string) : gmap string string :=
  insert_all toLowerCase stored_value entries headers.

(** Entries [res.set] accepts: a legal name, and a value that is legal as
    it is stored. *)
Definition entries_ok (entries : list (string * string)) : bool :=
  forallb
    (λ '(key, value), legal_name key && legal_value (stored_value key value))
    entries.

(** The response object after [response] was emitted to the end on [res]:
    status and headers set; for a buffer the head gone out with them, the
    buffer written and the response closed; for a stream the stream
    attached. *)
Definition emitted (response : Response) (res : ExpressResponse)
    : ExpressResponse :=
  let headers :=
    set_all (Headers_entries (response_headers response)) (res_headers res) in
  {| res_statusCode := response_status response;
     res_headers := headers;
     res_head :=
       match response_body response with
       | BodyBuffer _ => Some (response_status response, headers)
       | _ => res_head res
       end;
     res_written :=
       match response_body response with
       | BodyBuffer bytes => res_written res ++ bytes
       | _ => res_written res
       end;
     res_ended :=
       match response_body response with
       | BodyBuffer _ => true
       | _ => res_ended res
       end;
     res_piped :=
       match response_body response with
       | BodyStream stream => res_piped res ++ [stream]
       | _ => res_piped res
       end |}.

(** Nothing of a reply went out between [res] and [res']. *)
Definition unsent (res res' : ExpressResponse) : Prop :=
  res_head res' = res_head res
  ∧ res_written res' = res_written res
  ∧ res_ended res' = res_ended res
  ∧ res_piped res' = res_piped res.

Variable env : ProcessEnv.
Variable options : Options.
Variable req : ExpressRequest.

(** The load context step on [res]: a function given as [getLoadContext]
    is called with the request and the response object; anything else is
    passed over and the context is [undefined]. *)
Inductive load_context (res : ExpressResponse)
    : ExpressResponse → Completion JsValue → Prop :=
  | load_context_function f res1 c :
      getLoadContext options = LoadContextFunction f →
      f req res = (res1, c) →
      load_context res res1 c
  | load_context_other v :
      getLoadContext options = LoadContextValue v →
      load_context res res (Normal JsUndefined).

(** The framework handler answers the request with [response], on the
    response object [res1] that the load context step left. *)
Inductive answers (res : ExpressResponse)
    : ExpressResponse → Response → Prop :=
  | answers_fulfilled request res1 loadContext response :
      createRemixRequest req = Normal request →
      load_context res res1 (Normal loadContext) →
      handleRequest env options request loadContext
        = Normal (Fulfilled response) →
      answers res res1 response.

(** A step of the callback fails with [error], leaving the response
    object as the steps before it made it. *)
Inductive fails (res : ExpressResponse) : ExpressResponse → JsValue → Prop :=
  | fails_translation error :
      createRemixRequest req = Throw error →
      fails res res error
  | fails_loadContext request res1 error :
      createRemixRequest req = Normal request →
      load_context res res1 (Throw error) →
      fails res res1 error
  | fails_handler_throws request res1 loadContext error :
      createRemixRequest req = Normal request →
      load_context res res1 (Normal loadContext) →
      handleRequest env options request loadContext = Throw error →
      fails res res1 error
  | fails_handler_rejects request res1 loadContext error :
      createRemixRequest req = Normal request →
      load_context res res1 (Normal loadContext) →
      handleRequest env options request loadContext
        = Normal (Rejected error) →
      fails res res1 error
  | fails_emission res1 response res2 error :
      answers res res1 response →
      sendRemixResponse response res1 = (res2, Throw error) →
      fails res res2 error.
End Outcomes.

(** ** Sample platforms and data *)

(** Express's completion of a [Content-Type], for the text types. *)
Definition text_utf8 (value : string) : string :=
  match strip_prefix "text/" value with
  | Some _ =>
      if String_forallb (λ c, negb (Ascii.eqb c ";"%char)) value
      then value +:+ "; charset=utf-8"
      else value
  | None => value
  end.

(** A platform where a build is its own request handler.  Its URL class
    refuses what is not a plain path on a plain origin. *)
Definition origin_imports : Imports :=
  {| URL_other := λ _ _, Throw (JsError "TypeError" "Invalid URL");
     Express_contentType := text_utf8;
     ServerBuild := Request → JsValue → Completion (Promise Response);
     createRemixRequestHandler := λ build _ _, build |}.

(** A platform whose handler reports how it was bound: the mode and the
    timing flag come back as headers of an empty 200 response. *)
Definition reporting_imports : Imports :=
  {| URL_other := λ _ _, Throw (JsError "TypeError" "Invalid URL");
     Express_contentType := text_utf8;
     ServerBuild := unit;
     createRemixRequestHandler := λ _ mode timing _ _,
       Normal (Fulfilled
         {| response_status := 200;
            response_headers :=
              mkHeaders
                [("x-mode", default "" mode);
                 ("x-timing", if timing then "on" else "off")];
            response_body := BodyBuffer [] |}) |}.

(** [GET /foo?x=1] on [https://example.com]. *)
Definition get_foo : ExpressRequest :=
  {| req_protocol := "https"; req_hostname := "example.com";
     req_url := "/foo?x=1"; req_method := "GET";
     req_headers := {[ "accept" := HString "*/*" ]};
     req_payload := [Byte.x78] |}.

(** [POST /submit] with a repeated header and a payload. *)
Definition post_submit : ExpressRequest :=
  {| req_protocol := "http"; req_hostname := "localhost";
     req_url := "/submit"; req_method := "POST";
     req_headers := {[ "x-foo" := HArray ["a"; "b"] ]};
     req_payload := [Byte.x68; Byte.x69] |}.

(** The same [POST], with the method spelled in lower case. *)
Definition post_lower : ExpressRequest :=
  {| req_protocol := "http"; req_hostname := "localhost";
     req_url := "/submit"; req_method := "post";
     req_headers := {[ "x-foo" := HArray ["a"; "b"] ]};
     req_payload := [Byte.x68; Byte.x69] |}.

(** The same request with another payload. *)
Definition with_payload (req : ExpressRequest) (payload : Buffer)
    : ExpressRequest :=
  {| req_protocol := req_protocol req; req_hostname := req_hostname req;
     req_url := req_url req; req_method := req_method req;
     req_headers := req_headers req; req_payload := payload |}.

(** Headers as Node may hand them over: a string, an array, and a name
    whose value is [undefined]. *)
Definition mixed_headers : gmap string HeaderValue :=
  {[ "host" := HString "example.com";
     "set-cookie" := HArray ["a=1"; "b=2"];
     "cookie" := HUndefined ]}.

(** [{ status: 404, headers: {}, body: <empty buffer> }] *)
Definition not_found : Response :=
  {| response_status := 404; response_headers := mkHeaders [];
     response_body := BodyBuffer [] |}.

(** [{ status: 204, headers: { "x-powered-by": "remix" }, body: null }] *)
Definition no_content : Response :=
  {| response_status := 204;
     response_headers := mkHeaders [("x-powered-by", "remix")];
     response_body := BodyNull |}.

(** [{ status: 200, headers: { "content-type": "text/html" }, body: stream }] *)
Definition streamed_page : Response :=
  {| response_status := 200;
     response_headers := mkHeaders [("content-type", "text/html")];
     response_body := BodyStream (IncomingStream [Byte.x6f; Byte.x6b]) |}.

(** A build whose handler throws before it returns a promise. *)
Definition throwing_build
    : Request → JsValue → Completion (Promise Response) :=
  λ _ _, Throw (JsError "Error" "boom").

(** A build whose handler returns a promise that is rejected. *)
Definition rejecting_build
    : Request → JsValue → Completion (Promise Response) :=
  λ _ _, Normal (Rejected (JsError "Error" "no such route")).

(** A build that answers every request with [not_found]. *)
Definition not_found_build
    : Request → JsValue → Completion (Promise Response) :=
  λ _ _, Normal (Fulfilled not_found).

(** A build that answers every request with [no_content]. *)
Definition no_content_build
    : Request → JsValue → Completion (Promise Response) :=
  λ _ _, Normal (Fulfilled no_content).

(** A build whose handler answers 200 when the load context is [undefined]
    and 500 when it is anything else. *)
Definition probe_build : Request → JsValue → Completion (Promise Response) :=
  λ _ loadContext,
    Normal (Fulfilled
      {| response_status :=
           match loadContext with JsUndefined => 200 | _ => 500 end;
         response_headers := mkHeaders [];
         response_body := BodyBuffer [] |}).

(** Options that name a build and leave everything else out. *)
Definition only_build (b : Request → JsValue → Completion (Promise Response))
    : @Options origin_imports :=
  @mkOptions origin_imports b (LoadContextValue JsUndefined) None None.

(** Options with a build and a [getLoadContext] that returns 7. *)
Definition with_context_seven
    (b : Request → JsValue → Completion (Promise Response))
    : @Options origin_imports :=
  @mkOptions origin_imports b (LoadContextFunction (λ _, mret (JsNumber 7)))
    None None.

(** Nothing set on the response, nothing forwarded yet. *)
Definition fresh_world : World :=
  {| world_res := fresh_response; world_next := [] |}.

(** ** Folding insertions over a list of entries *)

Section InsertAll.
Context {V W : Type} (f : string → string) (g : string → V → W).

Lemma insert_all_cons key value entries (m : gmap string W) :
  insert_all f g ((key, value) :: entries) m
  = insert_all f g entries (<[f key := g key value]> m).
Proof. done. Qed.

Lemma insert_all_app before after (m : gmap string W) :
  insert_all f g (before ++ after) m
  = insert_all f g after (insert_all f g before m).
Proof. apply foldl_app. Qed.

(** A name no entry maps to keeps the value it had. *)
Lemma insert_all_untouched entries (m : gmap string W) name :
  name ∉ f <$> entries.*1 → insert_all f g entries m !! name = m !! name.
Proof.
  revert m. induction entries as [|[key value] entries IH]; intros m Hnotin.
  - done.
  - cbn in Hnotin. apply not_elem_of_cons in Hnotin as [Hne Hrest].
    rewrite insert_all_cons, IH by done. by rewrite lookup_insert_ne.
Qed.

(** The last entry of a name decides its value. *)
Lemma insert_all_last (before after : list (string * V)) key value
    (m : gmap string W) :
  f key ∉ f <$> after.*1 →
  insert_all f g (before ++ (key, value) :: after) m !! f key
  = Some (g key value).
Proof.
  intros Hnotin. rewrite insert_all_app, insert_all_cons.
  rewrite insert_all_untouched by done. apply lookup_insert_eq.
Qed.

Lemma dom_insert_all entries (m : gmap string W) :
  dom (insert_all f g entries m) = dom m ∪ list_to_set (f <$> entries.*1).
Proof.
  revert m. induction entries as [|[key value] entries IH]; intros m.
  - cbn. set_solver.
  - rewrite insert_all_cons, IH, dom_insert_L. cbn. set_solver.
Qed.
End InsertAll.

(** ** Strings and lists *)

Lemma Array_join_concat separator (a : list string) :
  Array_join separator a = String.concat separator a.
Proof. induction a as [|s [|t rest] IH]; simpl in *; congruence. Qed.

Lemma forallb_elem_of {A} (p : A → bool) (l : list A) x :
  forallb p l = true → x ∈ l → p x = true.
Proof.
  intros Hall Hin. apply list_elem_of_In in Hin.
  by apply (proj1 (forallb_forall p l) Hall).
Qed.

Lemma Object_keys_spec {V} (o : gmap string V) key :
  key ∈ Object_keys o ↔ is_Some (o !! key).
Proof.
  unfold Object_keys. rewrite list_elem_of_fmap. split.
  - intros [[k v] [-> Hin]]. apply elem_of_map_to_list in Hin. eauto.
  - intros [v Hv]. exists (key, v). split; [done|].
    by apply elem_of_map_to_list.
Qed.

(** ** Header translation: the object the [reduce] builds *)

Lemma object_set_lookup (memo : gmap string string) key value name :
  object_set memo key value !! name =
    if decide (name = key ∧ key ≠ "__proto__") then Some value
    else memo !! name.
Proof.
  unfold object_set.
  destruct (String.eqb_spec key "__proto__") as [->|Hne].
  - rewrite decide_False; [done|]. by intros [_ ?].
  - destruct (decide (name = key)) as [->|Hname].
    + rewrite decide_True by done. apply lookup_insert_eq.
    + rewrite decide_False by (by intros [? _]). by apply lookup_insert_ne.
Qed.

(** One pass of the [reduce] over any list of keys. *)
Lemma reduce_lookup (h : gmap string HeaderValue) keys
    (memo : gmap string string) key :
  foldl (headers_step h) memo keys !! key =
    if decide (key ∈ keys)
    then match delete "__proto__" h !! key ≫= header_text with
         | Some text => Some text
         | None => memo !! key
         end
    else memo !! key.
Proof.
  revert memo. induction keys as [|k keys IH]; intros memo.
  - by rewrite decide_False by apply not_elem_of_nil.
  - cbn [foldl]. rewrite IH.
    assert (Hstep : ∀ name, name ≠ k →
              headers_step h memo k !! name = memo !! name).
    { intros name Hne. unfold headers_step.
      destruct (h !! k) as [[s|a|]|]; rewrite ?object_set_lookup;
        try done; by rewrite decide_False by (by intros [? _]). }
    assert (Hhere :
              headers_step h memo k !! k =
                match delete "__proto__" h !! k ≫= header_text with
                | Some text => Some text
                | None => memo !! k
                end).
    { unfold headers_step. rewrite lookup_delete.
      destruct (decide ("__proto__" = k)) as [<-|Hproto].
      - cbn. destruct (h !! "__proto__") as [[s|a|]|]; try done;
          rewrite object_set_lookup;
          by rewrite decide_False by (by intros [_ ?]).
      - destruct (h !! k) as [[s|a|]|] eqn:Hk; cbn; try done;
          rewrite object_set_lookup, ?Array_join_concat;
          by rewrite decide_True by done. }
    destruct (decide (key = k)) as [->|Hne].
    + rewrite (decide_True (P := k ∈ k :: keys)) by apply list_elem_of_here.
      rewrite Hhere.
      by destruct (decide (k ∈ keys)),
                  (delete "__proto__" h !! k ≫= header_text).
    + rewrite Hstep by done.
      destruct (decide (key ∈ keys)) as [Hin|Hnin].
      * by rewrite (decide_True (P := key ∈ k :: keys))
          by (by apply list_elem_of_further).
      * by rewrite (decide_False (P := key ∈ k :: keys))
          by (by intros [?|?]%elem_of_cons).
Qed.

(** The object handed to [new Headers]. *)
Lemma reduce_result (h : gmap string HeaderValue) :
  foldl (headers_step h) ∅ (Object_keys h)
  = omap header_text (delete "__proto__" h).
Proof.
  apply map_eq. intros key.
  rewrite reduce_lookup, lookup_omap, lookup_empty.
  case_decide as Hin.
  - by destruct (delete "__proto__" h !! key ≫= header_text).
  - destruct (delete "__proto__" h !! key) as [value|] eqn:Hk; [|done].
    exfalso. apply Hin, Object_keys_spec.
    apply lookup_delete_Some in Hk as [_ Hk]. eauto.
Qed.

Lemma createRemixHeaders_unfold (h : gmap string HeaderValue) :
  createRemixHeaders h
  = Headers_new (omap header_text (delete "__proto__" h)).
Proof. unfold createRemixHeaders. by rewrite reduce_result. Qed.

(** ** The header container *)

Lemma insert_all_NoDup_lookup {V W} (g : string → V → W)
    (entries : list (string * V)) (m : gmap string W) name value :
  NoDup entries.*1 → (name, value) ∈ entries →
  insert_all (λ key, key) g entries m !! name = Some (g name value).
Proof.
  intros Hnodup (before & after & ->)%list_elem_of_split.
  apply (insert_all_last (λ key, key) g).
  rewrite fmap_app, fmap_cons in Hnodup.
  apply NoDup_app in Hnodup as (_ & _ & Hnodup).
  apply NoDup_cons in Hnodup as [Hnotin _].
  by rewrite list_fmap_id.
Qed.

Lemma insert_all_map_to_list {V W} (g : string → V → W)
    (init : gmap string V) name :
  insert_all (λ key, key) g (map_to_list init) ∅ !! name
  = g name <$> init !! name.
Proof.
  destruct (init !! name) as [value|] eqn:Hname; cbn.
  - apply insert_all_NoDup_lookup; [apply NoDup_fst_map_to_list|].
    by apply elem_of_map_to_list.
  - rewrite insert_all_untouched; [done|]. rewrite list_fmap_id.
    intros ([name' value] & -> & Hin)%list_elem_of_fmap.
    apply elem_of_map_to_list in Hin. cbn in Hname. congruence.
Qed.

(** In a store every name sits under its lower-case form. *)
Lemma Headers_append_keyed (store store' : gmap string (string * list string))
    name value :
  map_Forall (λ key p, toLowerCase p.1 = key) store →
  Headers_append store name value = Normal store' →
  map_Forall (λ key p, toLowerCase p.1 = key) store'.
Proof.
  intros Hkeyed. unfold Headers_append.
  destruct (legal_name name); [|done].
  destruct (legal_value value); [|done]. cbn. intros [= <-].
  destruct (store !! toLowerCase name) as [[first values]|] eqn:Hstore.
  - apply map_Forall_insert_2; [|done]. apply (Hkeyed _ _ Hstore).
  - by apply map_Forall_insert_2.
Qed.

Lemma Headers_append_all_keyed properties
    (store store' : gmap string (string * list string)) :
  map_Forall (λ key p, toLowerCase p.1 = key) store →
  Headers_append_all store properties = Normal store' →
  map_Forall (λ key p, toLowerCase p.1 = key) store'.
Proof.
  revert store. induction properties as [|[name value] rest IH];
    intros store Hkeyed; cbn.
  - by intros [= <-].
  - destruct (Headers_append store name value) as [store1|] eqn:Happend;
      [|done].
    apply IH. by eapply Headers_append_keyed.
Qed.

(** The names a container yields are the keys of its store. *)
Lemma Headers_of_store_names (store : gmap string (string * list string)) :
  map_Forall (λ key p, toLowerCase p.1 = key) store →
  (Headers_entries (Headers_of_store store)).*1 ≡ₚ (map_to_list store).*1.
Proof.
  intros Hkeyed. unfold Headers_of_store. cbn [Headers_entries].
  rewrite <- list_fmap_compose, merge_sort_Permutation.
  rewrite <- list_fmap_compose.
  apply reflexive_eq, list_fmap_ext.
  intros i [key [first values]] Hi. cbn.
  apply list_elem_of_lookup_2, elem_of_map_to_list in Hi.
  apply (Hkeyed _ _ Hi).
Qed.

(** A container never yields a name twice. *)
Lemma Headers_new_NoDup init headers :
  Headers_new init = Normal headers → NoDup (Headers_entries headers).*1.
Proof.
  unfold Headers_new.
  destruct (Headers_append_all ∅ (map_to_list init)) as [store|] eqn:Hall;
    [|done].
  intros [= <-]. rewrite Headers_of_store_names.
  - apply NoDup_fst_map_to_list.
  - eapply Headers_append_all_keyed; [|done]. apply map_Forall_empty.
Qed.

(** What a store yields, entry by entry. *)
Lemma Headers_of_store_entries (store : gmap string (string * list string))
    name text :
  (name, text) ∈ Headers_entries (Headers_of_store store)
  ↔ ∃ key first values,
      store !! key = Some (first, values)
      ∧ name = toLowerCase first ∧ text = Array_join ", " values.
Proof.
  unfold Headers_of_store. cbn [Headers_entries].
  rewrite list_elem_of_fmap. split.
  - intros ([first values] & [= Hname Htext] & Hin). subst name text.
    rewrite merge_sort_Permutation in Hin.
    apply list_elem_of_fmap in Hin as ([key p] & Hp & Hin).
    cbn in Hp. subst p. apply elem_of_map_to_list in Hin.
    by exists key, first, values.
  - intros (key & first & values & Hstore & -> & ->).
    exists (first, values). split; [done|].
    rewrite merge_sort_Permutation. apply list_elem_of_fmap.
    exists (key, (first, values)). split; [done|].
    by apply elem_of_map_to_list.
Qed.

Lemma lower_legal_lookup (init : gmap string string) name value :
  lower_legal init = true → init !! name = Some value →
  legal_name name = true ∧ toLowerCase name = name
  ∧ legal_value value = true.
Proof.
  intros Hall Hname. apply elem_of_map_to_list in Hname.
  pose proof (forallb_elem_of _ _ _ Hall Hname) as Hok. cbn in Hok.
  apply andb_true_iff in Hok as [Hok Hvalue].
  apply andb_true_iff in Hok as [Hlegal Hlower].
  by apply String.eqb_eq in Hlower.
Qed.

(** Appending properties with distinct lower-case names to a store that
    has none of them puts each under its own name. *)
Lemma Headers_append_all_lower properties
    (store : gmap string (string * list string)) :
  NoDup properties.*1 →
  (∀ name value, (name, value) ∈ properties →
     legal_name name = true ∧ toLowerCase name = name
     ∧ legal_value value = true ∧ store !! name = None) →
  Headers_append_all store properties
  = Normal (insert_all (λ key, key) (λ name value, (name, [value]))
              properties store).
Proof.
  revert store. induction properties as [|[name value] rest IH];
    intros store Hnodup Hok; [done|].
  cbn in Hnodup. apply NoDup_cons in Hnodup as [Hfresh Hnodup].
  destruct (Hok name value) as (Hlegal & Hlower & Hvalue & Hnone);
    [apply list_elem_of_here|].
  cbn [Headers_append_all]. unfold Headers_append.
  rewrite Hlegal, Hvalue, Hlower, Hnone. cbn.
  rewrite IH; [done | done |].
  intros name' value' Hin.
  destruct (Hok name' value') as (? & ? & ? & ?);
    [by apply list_elem_of_further|].
  repeat split; try done. rewrite lookup_insert_ne; [done|].
  intros ->. apply Hfresh, list_elem_of_fmap. by exists (name', value').
Qed.

(** A plain object with legal lower-case names and legal values makes a
    container with exactly its properties as entries. *)
Lemma Headers_new_lower (init : gmap string string) :
  lower_legal init = true →
  ∃ headers,
    Headers_new init = Normal headers
    ∧ NoDup (Headers_entries headers).*1
    ∧ ∀ name value,
        (name, value) ∈ Headers_entries headers ↔ init !! name = Some value.
Proof.
  intros Hall. unfold Headers_new.
  rewrite Headers_append_all_lower.
  - eexists. split; [done|]. split.
    + apply (Headers_new_NoDup init). unfold Headers_new.
      rewrite Headers_append_all_lower; [done | apply NoDup_fst_map_to_list |].
      intros name value Hin%elem_of_map_to_list.
      by destruct (lower_legal_lookup _ _ _ Hall Hin) as (? & ? & ?).
    + intros name value. rewrite Headers_of_store_entries. split.
      * intros (key & first & values & Hstore & -> & ->).
        rewrite insert_all_map_to_list in Hstore.
        destruct (init !! key) as [v|] eqn:Hkey; [|done].
        cbn in Hstore. injection Hstore as <- <-.
        destruct (lower_legal_lookup _ _ _ Hall Hkey) as (_ & -> & _).
        done.
      * intros Hname. exists name, name, [value].
        rewrite insert_all_map_to_list, Hname.
        by destruct (lower_legal_lookup _ _ _ Hall Hname) as (_ & -> & _).
  - apply NoDup_fst_map_to_list.
  - intros name value Hin%elem_of_map_to_list.
    by destruct (lower_legal_lookup _ _ _ Hall Hin) as (? & ? & ?).
Qed.

Lemma Headers_get_entry headers name value :
  NoDup (Headers_entries headers).*1 →
  toLowerCase name = name →
  Headers_get name headers = Some value
  ↔ (name, value) ∈ Headers_entries headers.
Proof.
  intros Hnodup Hlower. unfold Headers_get. rewrite Hlower.
  symmetry. by apply elem_of_list_to_map.
Qed.

(** The translation of headers as Node hands them over. *)
Lemma Node_headers_lookup (h : gmap string HeaderValue) name value :
  Node_headers h = true → h !! name = Some value →
  Node_name name = true
  ∧ ∀ text, header_text value = Some text → legal_value text = true.
Proof.
  intros Hall Hname. apply elem_of_map_to_list in Hname.
  pose proof (forallb_elem_of _ _ _ Hall Hname) as Hok. cbn in Hok.
  apply andb_true_iff in Hok as [Hnode Hvalue]. split; [done|].
  intros text Htext. by rewrite Htext in Hvalue.
Qed.

Lemma Node_name_spec name :
  Node_name name = true →
  legal_name name = true ∧ toLowerCase name = name ∧ name ≠ "__proto__".
Proof.
  unfold Node_name. intros Hnode.
  apply andb_true_iff in Hnode as [Hnode Hproto].
  apply andb_true_iff in Hnode as [Hlegal Hlower].
  apply String.eqb_eq in Hlower. apply negb_true_iff in Hproto.
  by apply String.eqb_neq in Hproto.
Qed.

Lemma Node_headers_translated (h : gmap string HeaderValue) name :
  Node_headers h = true →
  omap header_text (delete "__proto__" h) !! name = h !! name ≫= header_text.
Proof.
  intros Hall. rewrite lookup_omap, lookup_delete.
  destruct (decide ("__proto__" = name)) as [<-|]; [|done].
  destruct (h !! "__proto__") as [value|] eqn:Hproto; [|done].
  destruct (Node_headers_lookup _ _ _ Hall Hproto) as [Hnode _].
  by apply Node_name_spec in Hnode as (_ & _ & ?).
Qed.

Lemma createRemixHeaders_Node (h : gmap string HeaderValue) :
  Node_headers h = true →
  ∃ headers,
    createRemixHeaders h = Normal headers
    ∧ NoDup (Headers_entries headers).*1
    ∧ ∀ name text,
        (name, text) ∈ Headers_entries headers
        ↔ h !! name ≫= header_text = Some text.
Proof.
  intros Hall. rewrite createRemixHeaders_unfold.
  destruct (Headers_new_lower (omap header_text (delete "__proto__" h)))
    as (headers & Hnew & Hnodup & Hentries).
  - apply forallb_forall. intros [name text] Hin%list_elem_of_In.
    apply elem_of_map_to_list in Hin.
    rewrite Node_headers_translated in Hin by done.
    destruct (h !! name) as [value|] eqn:Hname; [|done]. cbn in Hin.
    destruct (Node_headers_lookup _ _ _ Hall Hname) as [Hnode Hvalue].
    apply Node_name_spec in Hnode as (-> & Hlower & _).
    rewrite (Hvalue _ Hin), Hlower. cbn. by rewrite String.eqb_refl.
  - exists headers. split; [done|]. split; [done|].
    intros name text. by rewrite Hentries, Node_headers_translated.
Qed.

(** ** Header translation *)

(** C5: in headers as Node hands them over (legal names in lower case,
    legal values), an entry whose value is an array of strings is
    translated to those strings joined with a comma, in their order: the
    container holds that text, and no other, under the name. *)
Theorem createRemixHeaders_array_joined
    (h : gmap string HeaderValue) name (a : list string) :
  Node_headers h = true →
  h !! name = Some (HArray a) →
  ∃ headers,
    createRemixHeaders h = Normal headers
    ∧ (name, String.concat "," a) ∈ Headers_entries headers
    ∧ Headers_get name headers = Some (String.concat "," a)
    ∧ ∀ text, (name, text) ∈ Headers_entries headers →
        text = String.concat "," a.
Proof.
  intros Hnode Hname.
  destruct (createRemixHeaders_Node h Hnode)
    as (headers & Hrun & Hnodup & Hentries).
  assert (Hin : (name, String.concat "," a) ∈ Headers_entries headers).
  { apply Hentries. by rewrite Hname. }
  exists headers. repeat split; try done.
  - apply Headers_get_entry; [done | | done].
    destruct (Node_headers_lookup _ _ _ Hnode Hname) as [Hlower _].
    by apply Node_name_spec in Hlower as (_ & ? & _).
  - intros text Htext%Hentries. rewrite Hname in Htext. cbn in Htext.
    congruence.
Qed.

Lemma createRemixHeaders_array_joined_witness :
  ∃ headers,
    createRemixHeaders (req_headers post_submit) = Normal headers
    ∧ Headers_get "x-foo" headers = Some "a,b".
Proof.
  destruct (createRemixHeaders_array_joined
              (req_headers post_submit) "x-foo" ["a"; "b"])
    as (headers & Hrun & _ & Hget & _);
    [vm_compute; reflexivity | reflexivity |].
  exists headers. split; [exact Hrun | exact Hget].
Defined.

(** C6: for headers as Node hands them over in which every value is a
    single string, the translated container has exactly the names of the
    mapping, each once and with its string. *)
Theorem createRemixHeaders_strings_identity (h : gmap string HeaderValue) :
  Node_headers h = true →
  map_Forall (λ _ value, ∃ s, value = HString s) h →
  ∃ headers,
    createRemixHeaders h = Normal headers
    ∧ NoDup (Headers_entries headers).*1
    ∧ (∀ name s,
         (name, s) ∈ Headers_entries headers
         ↔ h !! name = Some (HString s))
    ∧ (∀ name s,
         h !! name = Some (HString s) →
         Headers_get name headers = Some s).
Proof.
  intros Hnode Hall.
  destruct (createRemixHeaders_Node h Hnode)
    as (headers & Hrun & Hnodup & Hentries).
  assert (Hiff : ∀ name s,
            (name, s) ∈ Headers_entries headers
            ↔ h !! name = Some (HString s)).
  { intros name s. rewrite Hentries.
    destruct (h !! name) as [value|] eqn:Hname; cbn.
    - destruct (Hall _ _ Hname) as [t ->]. cbn. split; congruence.
    - split; congruence. }
  exists headers. repeat split; try done; try apply Hiff.
  intros name s Hname. apply Headers_get_entry; [done | | by apply Hiff].
  destruct (Node_headers_lookup _ _ _ Hnode Hname) as [Hlower _].
  by apply Node_name_spec in Hlower as (_ & ? & _).
Qed.

Lemma createRemixHeaders_strings_identity_witness :
  ∃ headers,
    createRemixHeaders (req_headers get_foo) = Normal headers
    ∧ Headers_get "accept" headers = Some "*/*".
Proof.
  destruct (createRemixHeaders_strings_identity (req_headers get_foo))
    as (headers & Hrun & _ & _ & Hget).
  - vm_compute; reflexivity.
  - apply map_Forall_singleton. by exists "*/*".
  - exists headers. split; [exact Hrun|]. apply Hget. reflexivity.
Defined.

(** C8: for headers as Node hands them over, header translation succeeds,
    and an entry that is missing or whose value is [undefined] does not
    appear in the container; a name whose value is [undefined] reads as
    missing. *)
Theorem createRemixHeaders_drops_undefined (h : gmap string HeaderValue) :
  Node_headers h = true →
  ∃ headers,
    createRemixHeaders h = Normal headers
    ∧ (∀ name text,
         h !! name = None ∨ h !! name = Some HUndefined →
         (name, text) ∉ Headers_entries headers)
    ∧ (∀ name,
         h !! name = Some HUndefined → Headers_get name headers = None).
Proof.
  intros Hnode.
  destruct (createRemixHeaders_Node h Hnode)
    as (headers & Hrun & Hnodup & Hentries).
  assert (Hnone : ∀ name text,
            h !! name = None ∨ h !! name = Some HUndefined →
            (name, text) ∉ Headers_entries headers).
  { intros name text Hname. rewrite Hentries.
    by destruct Hname as [-> | ->]. }
  exists headers. split; [done|]. split; [done|].
  intros name Hname.
  destruct (Node_headers_lookup _ _ _ Hnode Hname) as [Hlower _].
  apply Node_name_spec in Hlower as (_ & Hlower & _).
  destruct (Headers_get name headers) as [text|] eqn:Hget; [|done].
  apply Headers_get_entry in Hget; [|done|done].
  exfalso. eapply Hnone; [|done]. by right.
Qed.

Lemma createRemixHeaders_drops_undefined_witness :
  ∃ headers,
    createRemixHeaders mixed_headers = Normal headers
    ∧ Headers_get "cookie" headers = None.
Proof.
  destruct (createRemixHeaders_drops_undefined mixed_headers)
    as (headers & Hrun & _ & Hget); [vm_compute; reflexivity|].
  exists headers. split; [exact Hrun | by apply Hget].
Defined.

(** X3: an array of one string translates exactly as that string does. *)
Theorem createRemixHeaders_single_array
    (h : gmap string HeaderValue) name s :
  createRemixHeaders (<[name := HArray [s]]> h)
  = createRemixHeaders (<[name := HString s]> h).
Proof.
  rewrite !createRemixHeaders_unfold. f_equal.
  destruct (decide (name = "__proto__")) as [->|Hne].
  - by rewrite !delete_insert_eq.
  - rewrite !(delete_insert_ne _ "__proto__" name) by done.
    by rewrite (omap_insert_Some _ _ _ (HArray [s]) s),
               (omap_insert_Some _ _ _ (HString s) s).
Qed.

(** X4: a name whose value is [undefined] translates as if the mapping did
    not have the name at all. *)
Theorem createRemixHeaders_undefined_as_absent
    (h : gmap string HeaderValue) name :
  createRemixHeaders (<[name := HUndefined]> h)
  = createRemixHeaders (delete name h).
Proof.
  rewrite !createRemixHeaders_unfold. f_equal.
  destruct (decide (name = "__proto__")) as [->|Hne].
  - by rewrite delete_insert_eq, delete_delete_eq.
  - rewrite (delete_insert_ne _ "__proto__" name) by done.
    rewrite omap_insert_None by done.
    by rewrite <- omap_delete, delete_delete.
Qed.

(** ** Response emission *)

Section ResponseEmission.
Context `{Imports}.

Lemma unsent_refl res : unsent res res.
Proof. by repeat split. Qed.

Lemma unsent_trans res1 res2 res3 :
  unsent res1 res2 → unsent res2 res3 → unsent res1 res3.
Proof.
  intros (? & ? & ? & ?) (? & ? & ? & ?). repeat split; congruence.
Qed.

(** [res.set] sends nothing and leaves the status alone, whether it
    returns or throws. *)
Lemma res_set_unsent field value res res' c :
  res_set field value res = (res', c) →
  unsent res res' ∧ res_statusCode res' = res_statusCode res.
Proof.
  unfold res_set. destruct (res_head res) eqn:Hhead.
  - intros [= <- <-]. split; [apply unsent_refl | done].
  - destruct (legal_name field); cbn;
      [|intros [= <- <-]; split; [apply unsent_refl | done]].
    destruct (legal_value (stored_value field value)); cbn;
      intros [= <- <-]; (split; [|done]); by repeat split.
Qed.

Lemma for_of_res_set_unsent entries res res' c :
  for_of entries (λ '(key, value), res_set key value) res = (res', c) →
  unsent res res' ∧ res_statusCode res' = res_statusCode res.
Proof.
  revert res. induction entries as [|[key value] entries IH]; intros res.
  - intros [= <- <-]. split; [apply unsent_refl | done].
  - cbn [for_of]. unfold mbind.
    destruct (res_set key value res) as [res1 [[]|e]] eqn:Hset.
    + intros Hrest. apply IH in Hrest as [Hrest Hstatus].
      apply res_set_unsent in Hset as [Hset Hstatus1].
      split; [by eapply unsent_trans | congruence].
    + intros [= <- <-]. by eapply res_set_unsent.
Qed.

(** On a response whose head is still to go out, legal entries are all
    set, and only the headers change. *)
Lemma for_of_res_set_open entries res :
  res_head res = None →
  entries_ok entries = true →
  for_of entries (λ '(key, value), res_set key value) res =
    ({| res_statusCode := res_statusCode res;
        res_headers := set_all entries (res_headers res);
        res_head := None;
        res_written := res_written res;
        res_ended := res_ended res;
        res_piped := res_piped res |}, Normal tt).
Proof.
  revert res. induction entries as [|[key value] entries IH];
    intros res Hhead Hok.
  - destruct res. cbn in *. by subst.
  - cbn in Hok. apply andb_true_iff in Hok as [Hentry Hok].
    apply andb_true_iff in Hentry as [Hname Hvalue].
    cbn [for_of]. unfold mbind, res_set at 1.
    rewrite Hhead, Hname, Hvalue. cbn. by rewrite IH.
Qed.

(** The emission of a response on a response object whose head is still
    to go out, with entries that [res.set] accepts. *)
Lemma sendRemixResponse_open response res :
  res_head res = None →
  entries_ok (Headers_entries (response_headers response)) = true →
  sendRemixResponse response res =
    match response_body response with
    | BodyBuffer bytes =>
        if (100 <=? response_status response)
           && (response_status response <=? 999)
        then (emitted response res, Normal tt)
        else ({| res_statusCode := response_status response;
                 res_headers :=
                   set_all (Headers_entries (response_headers response))
                           (res_headers res);
                 res_head := None;
                 res_written := res_written res;
                 res_ended := res_ended res;
                 res_piped := res_piped res |},
              Throw (JsError "RangeError" "Invalid status code"))
    | BodyStream stream => (emitted response res, Normal tt)
    | BodyNull =>
        ({| res_statusCode := response_status response;
            res_headers :=
              set_all (Headers_entries (response_headers response))
                      (res_headers res);
            res_head := None;
            res_written := res_written res;
            res_ended := res_ended res;
            res_piped := res_piped res |},
         Throw (JsError "TypeError"
                  "Cannot read properties of null (reading 'pipe')"))
    end.
Proof.
  intros Hhead Hok.
  unfold sendRemixResponse, mbind at 1, res_status, modify.
  unfold mbind. rewrite for_of_res_set_open by done. cbn.
  unfold emitted.
  destruct (response_body response) as [bytes|stream|]; cbn; try done.
  unfold pipe_to_res, modify. cbn. by rewrite Hhead.
Qed.

(** Whenever the emission throws, nothing of a reply went out. *)
Lemma sendRemixResponse_throw_unsent response res res' error :
  sendRemixResponse response res = (res', Throw error) → unsent res res'.
Proof.
  unfold sendRemixResponse, mbind at 1, res_status, modify. unfold mbind.
  match goal with
  | |- context [for_of ?entries ?body ?res0] =>
      destruct (for_of entries body res0) as [res1 [[]|e]] eqn:Hloop
  end;
    apply for_of_res_set_unsent in Hloop as [Hloop _]; cbn in Hloop.
  - destruct (response_body response) as [bytes|stream|].
    + unfold res_end. destruct (res_head res1) eqn:Hhead.
      * by destruct (res_ended res1).
      * destruct ((100 <=? res_statusCode res1)
                  && (res_statusCode res1 <=? 999)); [done|].
        by intros [= <- <-].
    + done.
    + by intros [= <- <-].
  - by intros [= <- <-].
Qed.

(** With a null body the emission never returns. *)
Lemma sendRemixResponse_null_throws response res :
  response_body response = BodyNull →
  ∃ res' error, sendRemixResponse response res = (res', Throw error).
Proof.
  intros Hbody.
  unfold sendRemixResponse, mbind at 1, res_status, modify. unfold mbind.
  match goal with
  | |- context [for_of ?entries ?body ?res0] =>
      destruct (for_of entries body res0) as [res1 [[]|e]]
  end; rewrite ?Hbody; eauto.
Qed.
End ResponseEmission.

(** C4: on a response object whose head is still to go out, for a
    response with a buffered body, a status Node accepts and header entries
    [res.set] accepts, [sendRemixResponse] sets the status, sets every
    header entry in order (under its lower-case name, the value as it is
    but for the charset Express adds to a [Content-Type]), so that the last
    entry of a name is the one that stays, and then writes exactly the
    buffer and closes the response: the head goes out with that status and
    those headers.  The empty 404 response leaves a closed 404 reply with
    nothing written. *)
Theorem sendRemixResponse_buffered `{Imports} response bytes res :
  response_body response = BodyBuffer bytes →
  res_head res = None →
  100 ≤ response_status response ≤ 999 →
  entries_ok (Headers_entries (response_headers response)) = true →
  let entries := Headers_entries (response_headers response) in
  ∃ res',
    sendRemixResponse response res = (res', Normal tt)
    ∧ res_statusCode res' = response_status response
    ∧ res_headers res' = set_all entries (res_headers res)
    ∧ res_head res' = Some (response_status response, res_headers res')
    ∧ (∀ (before after : list (string * string)) name value,
         entries = (before ++ (name, value) :: after)%list →
         toLowerCase name ∉ toLowerCase <$> after.*1 →
         res_headers res' !! toLowerCase name
         = Some (if String.eqb (toLowerCase name) "content-type"
                 then Express_contentType value else value))
    ∧ (∀ name, name ∉ toLowerCase <$> entries.*1 →
         res_headers res' !! name = res_headers res !! name)
    ∧ res_written res' = (res_written res ++ bytes)%list
    ∧ res_ended res' = true
    ∧ res_piped res' = res_piped res.
Proof.
  intros Hbody Hhead [Hlow Hhigh] Hok entries.
  rewrite sendRemixResponse_open, Hbody by done.
  apply Z.leb_le in Hlow, Hhigh. rewrite Hlow, Hhigh. cbn.
  eexists. split; [reflexivity|]. unfold emitted. rewrite Hbody. cbn.
  repeat split.
  - intros before after name value Hentries Hlast.
    unfold entries in Hentries. rewrite Hentries.
    apply (insert_all_last toLowerCase stored_value). done.
  - intros name Hnotin.
    by apply (insert_all_untouched toLowerCase stored_value).
Qed.

Lemma sendRemixResponse_buffered_witness :
  ∃ res',
    @sendRemixResponse origin_imports not_found fresh_response
    = (res', Normal tt)
    ∧ res_statusCode res' = 404
    ∧ res_head res' = Some (404, ∅)
    ∧ res_written res' = []
    ∧ res_ended res' = true.
Proof.
  destruct (@sendRemixResponse_buffered origin_imports
              not_found [] fresh_response)
    as (res' & Hrun & Hstatus & Hheaders & Hhead & _ & _
        & Hwritten & Hended & _);
    [reflexivity | reflexivity | cbn; lia | reflexivity |].
  exists res'. rewrite Hhead, Hheaders. repeat split; assumption.
Defined.

(** C9: with a null body [sendRemixResponse] never returns, so it returns
    only for a buffer or a stream; nothing of a reply goes out when it
    throws.  On a response object whose head is still to go out, with
    entries [res.set] accepts, the failure is the [TypeError] of the
    attempt to pipe the missing body, and the status and the headers of
    the response are set by then. *)
Theorem sendRemixResponse_null_body `{Imports} response res :
  ((∃ res', sendRemixResponse response res = (res', Normal tt)) →
   response_body response ≠ BodyNull)
  ∧ (response_body response = BodyNull →
     (∃ res' error,
        sendRemixResponse response res = (res', Throw error)
        ∧ unsent res res')
     ∧ (res_head res = None →
        entries_ok (Headers_entries (response_headers response)) = true →
        ∃ res' message,
          sendRemixResponse response res
          = (res', Throw (JsError "TypeError" message))
          ∧ res_statusCode res' = response_status response
          ∧ res_headers res'
            = set_all (Headers_entries (response_headers response))
                      (res_headers res))).
Proof.
  split.
  - intros [res' Hrun] Hbody.
    destruct (sendRemixResponse_null_throws response res Hbody)
      as (res1 & error & Hthrow). congruence.
  - intros Hbody. split.
    + destruct (sendRemixResponse_null_throws response res Hbody)
        as (res' & error & Hthrow).
      exists res', error. split; [done|].
      by eapply sendRemixResponse_throw_unsent.
    + intros Hhead Hok. rewrite sendRemixResponse_open, Hbody by done.
      by do 2 eexists.
Qed.

Lemma sendRemixResponse_null_body_witness :
  ∃ res' message,
    @sendRemixResponse origin_imports no_content fresh_response
    = (res', Throw (JsError "TypeError" message))
    ∧ res_statusCode res' = 204
    ∧ res_headers res' !! "x-powered-by" = Some "remix".
Proof.
  destruct (@sendRemixResponse_null_body origin_imports
              no_content fresh_response) as [_ Hnull].
  destruct (Hnull eq_refl) as [_ Hopen].
  destruct (Hopen eq_refl eq_refl)
    as (res' & message & Hrun & Hstatus & Hheaders).
  exists res', message. repeat split; try assumption.
  rewrite Hheaders. reflexivity.
Defined.

(** ** Further properties of response emission *)

(** X8: on a response object whose head is still to go out, with entries
    [res.set] accepts, a streamed body is piped into the response and
    nothing else: the status and headers are set, no head goes out, no
    byte is written by the adapter itself and the response is not closed
    by it. *)
Theorem sendRemixResponse_streamed `{Imports} response stream res :
  response_body response = BodyStream stream →
  res_head res = None →
  entries_ok (Headers_entries (response_headers response)) = true →
  sendRemixResponse response res =
    ({| res_statusCode := response_status response;
        res_headers :=
          set_all (Headers_entries (response_headers response))
                  (res_headers res);
        res_head := None;
        res_written := res_written res;
        res_ended := res_ended res;
        res_piped := res_piped res ++ [stream] |}, Normal tt).
Proof.
  intros Hbody Hhead Hok. rewrite sendRemixResponse_open, Hbody by done.
  unfold emitted. by rewrite Hbody, Hhead.
Qed.

Lemma sendRemixResponse_streamed_witness :
  ∃ res',
    @sendRemixResponse origin_imports streamed_page fresh_response
    = (res', Normal tt)
    ∧ res_statusCode res' = 200
    ∧ res_headers res' !! "content-type" = Some "text/html; charset=utf-8"
    ∧ res_written res' = []
    ∧ res_ended res' = false
    ∧ res_piped res' = [IncomingStream [Byte.x6f; Byte.x6b]].
Proof.
  eexists. split.
  - apply (@sendRemixResponse_streamed origin_imports streamed_page
             (IncomingStream [Byte.x6f; Byte.x6b]) fresh_response);
      reflexivity.
  - repeat split.
Defined.

(** X9: on a response object whose head is still to go out, with entries
    [res.set] accepts, whatever the body is, and also when the emission
    then throws, the response object ends with the status of the response,
    keeps every header name it had, and has gained exactly the lower-case
    names of the entries; a name no entry has keeps its value. *)
Theorem sendRemixResponse_status_headers `{Imports} response res :
  res_head res = None →
  entries_ok (Headers_entries (response_headers response)) = true →
  let res' := (sendRemixResponse response res).1 in
  let entries := Headers_entries (response_headers response) in
  res_statusCode res' = response_status response
  ∧ dom (res_headers res')
    = dom (res_headers res) ∪ list_to_set (toLowerCase <$> entries.*1)
  ∧ ∀ name, name ∉ toLowerCase <$> entries.*1 →
      res_headers res' !! name = res_headers res !! name.
Proof.
  intros Hhead Hok. cbn zeta. rewrite sendRemixResponse_open by done.
  unfold emitted.
  destruct (response_body response) as [bytes|stream|]; cbn;
    try destruct ((100 <=? response_status response)
                  && (response_status response <=? 999)); cbn;
    (split; [done|];
     split; [apply (dom_insert_all toLowerCase stored_value)|]);
    intros name Hnotin;
    by apply (insert_all_untouched toLowerCase stored_value).
Qed.

Lemma sendRemixResponse_status_headers_witness :
  let res' := (@sendRemixResponse origin_imports no_content fresh_response).1
  in res_statusCode res' = 204 ∧ dom (res_headers res') = {[ "x-powered-by" ]}.
Proof.
  destruct (@sendRemixResponse_status_headers origin_imports
              no_content fresh_response eq_refl eq_refl)
    as (Hstatus & Hdom & _).
  split; [exact Hstatus|]. rewrite Hdom. cbn. set_solver.
Defined.

(** ** Request translation *)

Section RequestTranslation.
Context `{Imports}.

(** A plain path on a plain origin resolves to the origin followed by the
    path. *)
Lemma URL_new_plain protocol hostname input :
  protocol = "http" ∨ protocol = "https" →
  plain_host hostname = true →
  plain_reference input = true →
  URL_new input (protocol +:+ "://" +:+ hostname)
  = Normal (protocol +:+ "://" +:+ hostname +:+ input).
Proof.
  intros Hprotocol Hhost Hinput. unfold URL_new.
  assert (Horigin : plain_origin (protocol +:+ "://" +:+ hostname) = true).
  { unfold plain_origin. by destruct Hprotocol as [-> | ->]; cbn. }
  rewrite Horigin, Hinput. cbn. f_equal.
  destruct Hprotocol as [-> | ->]; cbn; f_equal;
    induction hostname as [|c hostname IH]; cbn; congruence.
Qed.

(** What a request that is built is made of. *)
Lemma createRemixRequest_Normal req request :
  createRemixRequest req = Normal request →
  ∃ url headers,
    URL_new (req_url req) (req_protocol req +:+ "://" +:+ req_hostname req)
      = Normal url
    ∧ createRemixHeaders (req_headers req) = Normal headers
    ∧ request =
        {| request_url := url;
           request_method :=
             toUpperCase (if String.eqb (req_method req) "" then "GET"
                          else req_method req);
           request_headers := headers;
           request_body :=
             if String.eqb (req_method req) "GET"
                || String.eqb (req_method req) "HEAD"
             then None
             else Some (req_pipe req 16384) |}.
Proof.
  unfold createRemixRequest.
  destruct (URL_new _ _) as [url|e]; [|done].
  destruct (createRemixHeaders _) as [headers|e]; [|done].
  intros Hnew. exists url, headers. split; [done|]. split; [done|].
  unfold Request_new in Hnew.
  destruct (String.eqb (req_method req) "GET"),
           (String.eqb (req_method req) "HEAD"); cbn in Hnew;
    try (by injection Hnew as <-).
  match type of Hnew with
  | (if ?test then _ else _) = _ => destruct test; [done|]
  end.
  by injection Hnew as <-.
Qed.

(** A request with a method in upper case is built whenever its URL
    parses and its headers translate. *)
Lemma createRemixRequest_upper req url headers :
  req_method req ≠ "" →
  toUpperCase (req_method req) = req_method req →
  URL_new (req_url req) (req_protocol req +:+ "://" +:+ req_hostname req)
    = Normal url →
  createRemixHeaders (req_headers req) = Normal headers →
  ∃ request, createRemixRequest req = Normal request.
Proof.
  intros Hnonempty Hupper Hurl Hheaders. unfold createRemixRequest.
  rewrite Hurl, Hheaders. unfold Request_new.
  destruct (String.eqb_spec (req_method req) "GET") as [Hget|Hget];
    [cbn; eauto|].
  destruct (String.eqb_spec (req_method req) "HEAD") as [Hhead|Hhead];
    [cbn; eauto|].
  cbn. apply String.eqb_neq in Hnonempty. rewrite Hnonempty, Hupper.
  apply String.eqb_neq in Hget, Hhead. rewrite Hget, Hhead. cbn. eauto.
Qed.
End RequestTranslation.

(** C2: the request built for [GET] or [HEAD] has no body, whatever the
    payload of the native request; for any other method it has a body, a
    stream that yields the payload of the native request. *)
Theorem createRemixRequest_body `{Imports} req request :
  createRemixRequest req = Normal request →
  (req_method req = "GET" ∨ req_method req = "HEAD" →
   request_body request = None)
  ∧ (req_method req ≠ "GET" → req_method req ≠ "HEAD" →
     ∃ stream,
       request_body request = Some stream
       ∧ stream_bytes stream = req_payload req).
Proof.
  intros (url & headers & _ & _ & ->)%createRemixRequest_Normal. cbn. split.
  - intros [Hm | Hm]; rewrite Hm; reflexivity.
  - intros Hget%String.eqb_neq Hhead%String.eqb_neq.
    rewrite Hget, Hhead. cbn. eauto.
Qed.

Lemma createRemixRequest_body_witness :
  (∃ request,
     @createRemixRequest origin_imports get_foo = Normal request
     ∧ request_body request = None)
  ∧ (∃ request stream,
       @createRemixRequest origin_imports post_submit = Normal request
       ∧ request_body request = Some stream
       ∧ stream_bytes stream = [Byte.x68; Byte.x69]).
Proof.
  split.
  - eexists. split; [vm_compute; reflexivity|].
    eapply (@createRemixRequest_body origin_imports get_foo);
      [vm_compute; reflexivity | by left].
  - destruct (@createRemixRequest_body origin_imports post_submit
                _ ltac:(vm_compute; reflexivity)) as [_ Hbody].
    destruct Hbody as (stream & Hsome & Hbytes); [done | done |].
    eexists _, stream. split; [vm_compute; reflexivity|]. by split.
Defined.

(** C3: the URL of a request that is built is what the URL class gives
    for the request path resolved against [protocol://hostname].  For a
    request over [http] or [https] to a host of lower-case labels, with a
    path (and query) of plain characters, that is the origin followed by
    the path.  A [GET] of [/foo?x=1] on host [example.com] over [https] is
    built, when its headers are as Node hands them over, with the URL
    [https://example.com/foo?x=1] and no body. *)
Theorem createRemixRequest_url `{Imports} req :
  (∀ request,
     createRemixRequest req = Normal request →
     URL_new (req_url req) (req_protocol req +:+ "://" +:+ req_hostname req)
     = Normal (request_url request))
  ∧ (req_protocol req = "http" ∨ req_protocol req = "https" →
     plain_host (req_hostname req) = true →
     plain_reference (req_url req) = true →
     ∀ request,
       createRemixRequest req = Normal request →
       request_url request
       = req_protocol req +:+ "://" +:+ req_hostname req +:+ req_url req)
  ∧ (req_protocol req = "https" → req_hostname req = "example.com" →
     req_url req = "/foo?x=1" → req_method req = "GET" →
     (∀ request,
        createRemixRequest req = Normal request →
        request_url request = "https://example.com/foo?x=1"
        ∧ request_body request = None)
     ∧ (Node_headers (req_headers req) = true →
        ∃ request, createRemixRequest req = Normal request)).
Proof.
  assert (Hresolved :
            ∀ request,
              createRemixRequest req = Normal request →
              URL_new (req_url req)
                (req_protocol req +:+ "://" +:+ req_hostname req)
              = Normal (request_url request)).
  { by intros request
      (url & headers & Hurl & _ & ->)%createRemixRequest_Normal. }
  assert (Hgeneral :
            req_protocol req = "http" ∨ req_protocol req = "https" →
            plain_host (req_hostname req) = true →
            plain_reference (req_url req) = true →
            ∀ request,
              createRemixRequest req = Normal request →
              request_url request
              = req_protocol req +:+ "://" +:+ req_hostname req
                +:+ req_url req).
  { intros Hprotocol Hhost Hpath request Hurl%Hresolved.
    rewrite URL_new_plain in Hurl by done. congruence. }
  split; [exact Hresolved|]. split; [exact Hgeneral|].
  intros Hprotocol Hhost Hpath Hmethod. split.
  - intros request Hbuilt. split.
    + rewrite (Hgeneral (or_intror Hprotocol)) with (request := request);
        rewrite ?Hprotocol, ?Hhost, ?Hpath; done.
    + apply createRemixRequest_Normal in Hbuilt
        as (url & headers & _ & _ & ->).
      cbn. by rewrite Hmethod.
  - intros Hnode.
    destruct (createRemixHeaders_Node _ Hnode) as (headers & Hheaders & _).
    eapply createRemixRequest_upper; [by rewrite Hmethod | by rewrite Hmethod
                                     | | done].
    apply URL_new_plain; rewrite ?Hprotocol, ?Hhost, ?Hpath; auto.
Qed.

Lemma createRemixRequest_url_witness :
  ∃ request,
    @createRemixRequest origin_imports get_foo = Normal request
    ∧ request_url request = "https://example.com/foo?x=1"
    ∧ request_body request = None.
Proof.
  destruct (@createRemixRequest_url origin_imports get_foo)
    as (_ & _ & Hscenario).
  destruct (Hscenario eq_refl eq_refl eq_refl eq_refl) as [Hurl Hbuilt].
  destruct Hbuilt as [request Hrequest]; [vm_compute; reflexivity|].
  exists request. split; [exact Hrequest|]. exact (Hurl request Hrequest).
Defined.

(** ** Further properties of request translation *)

(** X5: for a request as Node hands it over (headers as above, a method
    that is not empty and in upper case), the only way request translation
    fails is the URL constructor throwing, and then it throws the same
    error. *)
Theorem createRemixRequest_fails_only_on_URL `{Imports} req error :
  Node_headers (req_headers req) = true →
  req_method req ≠ "" →
  toUpperCase (req_method req) = req_method req →
  createRemixRequest req = Throw error
  ↔ URL_new (req_url req) (req_protocol req +:+ "://" +:+ req_hostname req)
    = Throw error.
Proof.
  intros Hnode Hnonempty Hupper.
  destruct (createRemixHeaders_Node _ Hnode) as (headers & Hheaders & _).
  destruct (URL_new (req_url req)
              (req_protocol req +:+ "://" +:+ req_hostname req))
    as [url|e] eqn:Hurl.
  - destruct (createRemixRequest_upper req url headers) as [request Hbuilt];
      try done.
    rewrite Hbuilt. split; congruence.
  - unfold createRemixRequest. rewrite Hurl. split; congruence.
Qed.

Lemma createRemixRequest_fails_only_on_URL_witness :
  @createRemixRequest origin_imports post_submit
  ≠ Throw (JsError "TypeError" "Invalid URL").
Proof.
  intros Hthrow.
  apply (@createRemixRequest_fails_only_on_URL origin_imports post_submit)
    in Hthrow; [| vm_compute; reflexivity | done | reflexivity].
  vm_compute in Hthrow. discriminate Hthrow.
Defined.

(** X6: a request that is built from a native request whose method is not
    empty and is ASCII carries that method in upper case, and the
    translation of the native headers. *)
Theorem createRemixRequest_method_headers `{Imports} req request :
  createRemixRequest req = Normal request →
  req_method req ≠ "" →
  is_ascii (req_method req) = true →
  request_method request = toUpperCase (req_method req)
  ∧ createRemixHeaders (req_headers req) = Normal (request_headers request).
Proof.
  intros (url & headers & _ & Hheaders & ->)%createRemixRequest_Normal
    Hnonempty%String.eqb_neq _.
  cbn. by rewrite Hnonempty.
Qed.

Lemma createRemixRequest_method_headers_witness :
  ∃ request,
    @createRemixRequest origin_imports post_lower = Normal request
    ∧ request_method request = "POST".
Proof.
  eexists. split; [vm_compute; reflexivity|].
  eapply (@createRemixRequest_method_headers origin_imports post_lower);
    [vm_compute; reflexivity | done | reflexivity].
Defined.

(** X7: for [GET] and [HEAD] the payload of the native request is not
    looked at: two requests that differ only in their payload translate to
    the same request. *)
Theorem createRemixRequest_ignores_payload `{Imports} req payload :
  req_method req = "GET" ∨ req_method req = "HEAD" →
  createRemixRequest (with_payload req payload) = createRemixRequest req.
Proof.
  intros Hmethod. unfold createRemixRequest. cbn.
  destruct (URL_new _ _) as [url|e]; [|done].
  destruct (createRemixHeaders _) as [headers|e]; [|done].
  by destruct Hmethod as [-> | ->].
Qed.

Lemma createRemixRequest_ignores_payload_witness :
  @createRemixRequest origin_imports
    (with_payload get_foo [Byte.x68; Byte.x69])
  = @createRemixRequest origin_imports get_foo.
Proof.
  apply (@createRemixRequest_ignores_payload origin_imports get_foo).
  by left.
Defined.

(** ** The middleware callback *)

Section Middleware.
Context `{Imports}.
Variable env : ProcessEnv.
Variable options : Options.
Variable req : ExpressRequest.

Lemma load_context_iff res res1 c :
  load_context options req res res1 c
  ↔ loadContext_of (getLoadContext options) req res = (res1, c).
Proof.
  split.
  - intros [f res' c' Hoption Hrun | v Hoption]; by rewrite Hoption.
  - destruct (getLoadContext options) as [f|v] eqn:Hoption; cbn.
    + intros Hrun. by eapply load_context_function.
    + intros [= <- <-]. by eapply load_context_other.
Qed.

(** The [try] block, step by step. *)
Lemma try_block_unfold res :
  try_block env options req res =
    match createRemixRequest req with
    | Throw error => (res, Rejected error)
    | Normal request =>
        match loadContext_of (getLoadContext options) req res with
        | (res1, Throw error) => (res1, Rejected error)
        | (res1, Normal loadContext) =>
            match handleRequest env options request loadContext with
            | Throw error => (res1, Rejected error)
            | Normal (Rejected error) => (res1, Rejected error)
            | Normal Pending => (res1, Pending)
            | Normal (Fulfilled response) =>
                match sendRemixResponse response res1 with
                | (res2, Throw error) => (res2, Rejected error)
                | (res2, Normal _) => (res2, Fulfilled tt)
                end
            end
        end
    end.
Proof.
  unfold try_block, abind, sync, lift, await.
  destruct (createRemixRequest req) as [request|e]; [|done].
  destruct (loadContext_of _ _ _) as [res1 [loadContext|e]]; [|done].
  destruct (handleRequest _ _ _ _) as [[response|e|]|e]; try done.
  by destruct (sendRemixResponse response res1) as [res2 [[]|e]].
Qed.

(** The callback runs the [try] block and forwards what it throws. *)
Lemma createRequestHandler_unfold w :
  createRequestHandler env options req w =
    match try_block env options req (world_res w) with
    | (res', Fulfilled _) =>
        ({| world_res := res'; world_next := world_next w |}, Fulfilled tt)
    | (res', Rejected error) =>
        ({| world_res := res'; world_next := world_next w ++ [error] |},
         Fulfilled tt)
    | (res', Pending) =>
        ({| world_res := res'; world_next := world_next w |}, Pending)
    end.
Proof.
  unfold createRequestHandler, try_catch, on_res, sync, next, modify.
  by destruct (try_block env options req (world_res w))
    as [res' [[]|e|]].
Qed.

Lemma try_block_fails res res' error :
  fails env options req res res' error →
  try_block env options req res = (res', Rejected error).
Proof.
  rewrite try_block_unfold.
  intros [e Hreq
         | request res1 e Hreq Hctx%load_context_iff
         | request res1 loadContext e Hreq Hctx%load_context_iff Hhandle
         | request res1 loadContext e Hreq Hctx%load_context_iff Hhandle
         | res1 response res2 e
             [request res1' loadContext response' Hreq
                Hctx%load_context_iff Hhandle] Hsend].
  - by rewrite Hreq.
  - by rewrite Hreq, Hctx.
  - by rewrite Hreq, Hctx, Hhandle.
  - by rewrite Hreq, Hctx, Hhandle.
  - by rewrite Hreq, Hctx, Hhandle, Hsend.
Qed.

Lemma try_block_answers res res1 response :
  answers env options req res res1 response →
  try_block env options req res =
    match sendRemixResponse response res1 with
    | (res2, Throw error) => (res2, Rejected error)
    | (res2, Normal _) => (res2, Fulfilled tt)
    end.
Proof.
  intros [request res1' loadContext response' Hreq
            Hctx%load_context_iff Hhandle].
  rewrite try_block_unfold. by rewrite Hreq, Hctx, Hhandle.
Qed.

(** Two answers to one request are the same answer. *)
Lemma answers_unique res res1 response res1' response' :
  answers env options req res res1 response →
  answers env options req res res1' response' →
  res1' = res1 ∧ response' = response.
Proof.
  intros [request r1 lc rsp Hreq Hctx%load_context_iff Hhandle]
         [request' r1' lc' rsp' Hreq' Hctx'%load_context_iff Hhandle'].
  rewrite Hreq in Hreq'. injection Hreq' as <-.
  rewrite Hctx in Hctx'. injection Hctx' as <- <-.
  rewrite Hhandle in Hhandle'. by injection Hhandle' as <-.
Qed.

(** The [try] block ends in one of three ways. *)
Lemma try_block_outcome res :
  (∃ res1 response res2,
     answers env options req res res1 response
     ∧ sendRemixResponse response res1 = (res2, Normal tt))
  ∨ (∃ res' error, fails env options req res res' error)
  ∨ (∃ request res1 loadContext,
       createRemixRequest req = Normal request
       ∧ load_context options req res res1 (Normal loadContext)
       ∧ handleRequest env options request loadContext = Normal Pending).
Proof.
  destruct (createRemixRequest req) as [request|e] eqn:Hreq;
    [|right; left; eauto using fails].
  destruct (loadContext_of (getLoadContext options) req res)
    as [res1 c] eqn:Hctx.
  apply load_context_iff in Hctx.
  destruct c as [loadContext|e]; [|right; left; eauto using fails].
  destruct (handleRequest env options request loadContext)
    as [[response|e|]|e] eqn:Hhandle;
    [| right; left; eauto using fails
     | right; right; eauto 10
     | right; left; eauto using fails].
  assert (Hanswers : answers env options req res res1 response)
    by eauto using answers.
  destruct (sendRemixResponse response res1) as [res2 [[]|e]] eqn:Hsend;
    [left; eauto 10 | right; left; eauto using fails].
Qed.
End Middleware.

(** C1: a failure in any step of the callback, be it the translation of
    the request, the computation of the load context by the function given
    as [getLoadContext], the call of the framework handler, whether it
    throws or the promise it returns is rejected, or the emission of the
    response, is passed to [next] as it is, once, and the callback itself
    returns normally; in no case does the callback reject. *)
Theorem createRequestHandler_forwards_failure `{Imports}
    env options req w res' error :
  fails env options req (world_res w) res' error →
  createRequestHandler env options req w =
    ({| world_res := res'; world_next := world_next w ++ [error] |},
     Fulfilled tt)
  ∧ ∀ req0 w0 reason,
      (createRequestHandler env options req0 w0).2 ≠ Rejected reason.
Proof.
  intros Hfails%try_block_fails. split.
  - by rewrite createRequestHandler_unfold, Hfails.
  - intros req0 w0 reason. rewrite createRequestHandler_unfold.
    by destruct (try_block env options req0 (world_res w0)) as [? [?|?|]].
Qed.

Lemma createRequestHandler_forwards_failure_witness :
  @createRequestHandler origin_imports ∅ (only_build throwing_build)
    get_foo fresh_world
  = ({| world_res := fresh_response;
        world_next := [JsError "Error" "boom"] |}, Fulfilled tt)
  ∧ @createRequestHandler origin_imports ∅ (only_build rejecting_build)
      get_foo fresh_world
    = ({| world_res := fresh_response;
          world_next := [JsError "Error" "no such route"] |}, Fulfilled tt).
Proof.
  split.
  - apply (@createRequestHandler_forwards_failure origin_imports ∅
             (only_build throwing_build) get_foo fresh_world).
    eapply fails_handler_throws;
      [vm_compute; reflexivity
      | by eapply load_context_other
      | reflexivity].
  - apply (@createRequestHandler_forwards_failure origin_imports ∅
             (only_build rejecting_build) get_foo fresh_world).
    eapply fails_handler_rejects;
      [vm_compute; reflexivity
      | by eapply load_context_other
      | reflexivity].
Defined.

Section Dichotomy.
Context `{Imports}.

(** On a response whose head is still to go out, the loop over the
    entries returns only when [res.set] accepts every entry. *)
Lemma for_of_res_set_Normal entries res res' :
  res_head res = None →
  for_of entries (λ '(key, value), res_set key value) res
    = (res', Normal tt) →
  entries_ok entries = true.
Proof.
  revert res. induction entries as [|[key value] entries IH];
    intros res Hhead; [done|].
  cbn [for_of]. unfold mbind, res_set at 1. rewrite Hhead. cbn.
  destruct (legal_name key); [|done].
  destruct (legal_value (stored_value key value)); [|done]. cbn.
  intros Hrest. by apply IH in Hrest.
Qed.

(** On such a response, an emission that returns is an emission to the
    end. *)
Lemma sendRemixResponse_Normal response res res' :
  res_head res = None →
  sendRemixResponse response res = (res', Normal tt) →
  res' = emitted response res ∧ response_body response ≠ BodyNull.
Proof.
  intros Hhead Hrun.
  assert (Hok : entries_ok (Headers_entries (response_headers response))
                = true).
  { revert Hrun.
    unfold sendRemixResponse, mbind at 1, res_status, modify. unfold mbind.
    match goal with
    | |- context [for_of ?entries ?body ?res0] =>
        destruct (for_of entries body res0) as [res1 [[]|e]] eqn:Hloop
    end; [|done].
    intros _. by eapply for_of_res_set_Normal in Hloop. }
  rewrite sendRemixResponse_open in Hrun by done.
  destruct (response_body response) as [bytes|stream|]; [| |done].
  - destruct ((100 <=? response_status response)
              && (response_status response <=? 999)); [|done].
    by injection Hrun as <-.
  - by injection Hrun as <-.
Qed.

(** A failed request did not get its answer out. *)
Lemma fails_unsent env options req res res' error res1 response :
  fails env options req res res' error →
  answers env options req res res1 response →
  unsent res1 res'.
Proof.
  intros Hfails Hanswers.
  destruct Hfails
    as [e Hreq
       | request res0 e Hreq Hctx%load_context_iff
       | request res0 loadContext e Hreq Hctx%load_context_iff Hhandle
       | request res0 loadContext e Hreq Hctx%load_context_iff Hhandle
       | res0 response0 res2 e Hanswers0 Hsend].
  - destruct Hanswers as [request ? ? ? Hreq' _ _]. congruence.
  - destruct Hanswers as [request' ? ? ? _ Hctx'%load_context_iff _].
    congruence.
  - destruct Hanswers
      as [request' ? ? ? Hreq' Hctx'%load_context_iff Hhandle'].
    rewrite Hreq in Hreq'. injection Hreq' as <-.
    rewrite Hctx in Hctx'. injection Hctx' as <- <-. congruence.
  - destruct Hanswers
      as [request' ? ? ? Hreq' Hctx'%load_context_iff Hhandle'].
    rewrite Hreq in Hreq'. injection Hreq' as <-.
    rewrite Hctx in Hctx'. injection Hctx' as <- <-. congruence.
  - destruct (answers_unique _ _ _ _ _ _ _ _ Hanswers0 Hanswers)
      as [-> ->].
    by eapply sendRemixResponse_throw_unsent.
Qed.
End Dichotomy.

(** C7: when no head has gone out on the response object by the time the
    load context is there, and the promise of the framework handler
    settles, one request has exactly one outcome.  Either the handler
    answers, the response object is left as the emission of the answer to
    the end leaves it (status and headers set, and the buffer written with
    the response closed, or the stream attached), and [next] is not
    called; or a step fails, [next] is called exactly once, with that
    failure, and nothing of an answer went out. *)
Theorem createRequestHandler_one_outcome `{Imports} env options req w :
  (∀ request res1 loadContext,
     createRemixRequest req = Normal request →
     load_context options req (world_res w) res1 (Normal loadContext) →
     res_head res1 = None
     ∧ handleRequest env options request loadContext ≠ Normal Pending) →
  ∃ w',
    createRequestHandler env options req w = (w', Fulfilled tt)
    ∧ ((∃ res1 response,
          answers env options req (world_res w) res1 response
          ∧ response_body response ≠ BodyNull
          ∧ world_res w' = emitted response res1
          ∧ world_next w' = world_next w)
       ∨ (∃ error,
            fails env options req (world_res w) (world_res w') error
            ∧ world_next w' = (world_next w ++ [error])%list
            ∧ ∀ res1 response,
                answers env options req (world_res w) res1 response →
                unsent res1 (world_res w'))).
Proof.
  intros Hopen. rewrite createRequestHandler_unfold.
  destruct (try_block_outcome env options req (world_res w))
    as [(res1 & response & res2 & Hanswers & Hsend)
       | [(res' & error & Hfails)
         | (request & res1 & loadContext & Hreq & Hctx & Hpending)]].
  - rewrite (try_block_answers _ _ _ _ _ _ Hanswers), Hsend.
    eexists. split; [done|]. left. exists res1, response. cbn.
    assert (Hhead : res_head res1 = None).
    { destruct Hanswers as [request ? loadContext ? Hreq Hctx _].
      by destruct (Hopen _ _ _ Hreq Hctx). }
    destruct (sendRemixResponse_Normal _ _ _ Hhead Hsend) as [-> Hbody].
    done.
  - rewrite (try_block_fails _ _ _ _ _ _ Hfails).
    eexists. split; [done|]. right. exists error. cbn.
    split; [done|]. split; [done|].
    intros res1 response Hanswers. by eapply fails_unsent.
  - by destruct (Hopen _ _ _ Hreq Hctx) as [_ Hsettles].
Qed.

Lemma createRequestHandler_one_outcome_witness :
  ∃ w',
    @createRequestHandler origin_imports ∅ (only_build not_found_build)
      get_foo fresh_world = (w', Fulfilled tt)
    ∧ world_res w' = @emitted origin_imports not_found fresh_response
    ∧ world_next w' = [].
Proof.
  assert (Hanswers :
            @answers origin_imports ∅ (only_build not_found_build) get_foo
              fresh_response fresh_response not_found).
  { eapply answers_fulfilled;
      [vm_compute; reflexivity | by eapply load_context_other | reflexivity]. }
  destruct (@createRequestHandler_one_outcome origin_imports ∅
              (only_build not_found_build) get_foo fresh_world)
    as (w' & Hrun & [(res1 & response & Hanswers' & _ & Hres & Hnext)
                    | (error & Hfails & _ & _)]).
  - intros request res1 loadContext _ Hctx.
    apply load_context_iff in Hctx. cbn in Hctx.
    injection Hctx as <- <-. by split.
  - destruct (answers_unique _ _ _ _ _ _ _ _ Hanswers Hanswers')
      as [-> ->].
    exists w'. by repeat split.
  - exfalso. cbn in Hfails.
    pose proof (try_block_fails _ _ _ _ _ _ Hfails) as Hthrows.
    rewrite (try_block_answers _ _ _ _ _ _ Hanswers) in Hthrows.
    vm_compute in Hthrows. discriminate Hthrows.
Defined.

(** C10: a [getLoadContext] that is not a function is passed over: the
    response object is not touched, no error is raised, and the framework
    handler is called with [undefined] as load context.  A function is
    called with the native request and the response object, and the handler
    is called with what it returns; what it throws goes to [next].  In both
    cases the response the handler answers with at that load context is
    what is emitted. *)
Theorem loadContext_only_from_function `{Imports}
    env options req w request :
  createRemixRequest req = Normal request →
  (∀ v response,
     getLoadContext options = LoadContextValue v →
     handleRequest env options request JsUndefined
       = Normal (Fulfilled response) →
     createRequestHandler env options req w =
       match sendRemixResponse response (world_res w) with
       | (res2, Normal _) =>
           ({| world_res := res2; world_next := world_next w |},
            Fulfilled tt)
       | (res2, Throw error) =>
           ({| world_res := res2; world_next := world_next w ++ [error] |},
            Fulfilled tt)
       end)
  ∧ (∀ f res1 loadContext response,
       getLoadContext options = LoadContextFunction f →
       f req (world_res w) = (res1, Normal loadContext) →
       handleRequest env options request loadContext
         = Normal (Fulfilled response) →
       createRequestHandler env options req w =
         match sendRemixResponse response res1 with
         | (res2, Normal _) =>
             ({| world_res := res2; world_next := world_next w |},
              Fulfilled tt)
         | (res2, Throw error) =>
             ({| world_res := res2; world_next := world_next w ++ [error] |},
              Fulfilled tt)
         end)
  ∧ (∀ f res1 error,
       getLoadContext options = LoadContextFunction f →
       f req (world_res w) = (res1, Throw error) →
       createRequestHandler env options req w =
         ({| world_res := res1; world_next := world_next w ++ [error] |},
          Fulfilled tt)).
Proof.
  intros Hreq. repeat split.
  - intros v response Hoption Hhandle.
    rewrite createRequestHandler_unfold, try_block_unfold.
    rewrite Hreq, Hoption. cbn [loadContext_of]. unfold mret.
    rewrite Hhandle.
    by destruct (sendRemixResponse response (world_res w))
      as [res2 [[]|e]].
  - intros f res1 loadContext response Hoption Hrun Hhandle.
    rewrite createRequestHandler_unfold, try_block_unfold.
    rewrite Hreq, Hoption. cbn [loadContext_of]. rewrite Hrun, Hhandle.
    by destruct (sendRemixResponse response res1) as [res2 [[]|e]].
  - intros f res1 error Hoption Hrun.
    rewrite createRequestHandler_unfold, try_block_unfold.
    rewrite Hreq, Hoption. cbn [loadContext_of]. by rewrite Hrun.
Qed.

Lemma loadContext_only_from_function_witness :
  (∃ w',
     @createRequestHandler origin_imports ∅
       (@mkOptions origin_imports probe_build
          (LoadContextValue (JsNumber 7)) None None)
       get_foo fresh_world = (w', Fulfilled tt)
     ∧ res_statusCode (world_res w') = 200 ∧ world_next w' = [])
  ∧ (∃ w',
       @createRequestHandler origin_imports ∅
         (with_context_seven probe_build) get_foo fresh_world
       = (w', Fulfilled tt)
       ∧ res_statusCode (world_res w') = 500 ∧ world_next w' = []).
Proof.
  split.
  - destruct (@loadContext_only_from_function origin_imports ∅
                (@mkOptions origin_imports probe_build
                   (LoadContextValue (JsNumber 7)) None None)
                get_foo fresh_world _ ltac:(vm_compute; reflexivity))
      as (Hvalue & _ & _).
    eexists. split; [|split].
    + rewrite (Hvalue (JsNumber 7) _ eq_refl eq_refl). reflexivity.
    + reflexivity.
    + reflexivity.
  - destruct (@loadContext_only_from_function origin_imports ∅
                (with_context_seven probe_build)
                get_foo fresh_world _ ltac:(vm_compute; reflexivity))
      as (_ & Hfunction & _).
    eexists. split; [|split].
    + rewrite (Hfunction _ fresh_response (JsNumber 7) _
                 eq_refl eq_refl eq_refl). reflexivity.
    + reflexivity.
    + reflexivity.
Defined.

(** ** Further properties of the header container *)

Lemma char_toLowerCase_idempotent c :
  char_toLowerCase (char_toLowerCase c) = char_toLowerCase c.
Proof. by destruct c as [[] [] [] [] [] [] [] []]. Qed.

Lemma toLowerCase_idempotent s : toLowerCase (toLowerCase s) = toLowerCase s.
Proof.
  induction s as [|c s IH]; [done|]. cbn. fold toLowerCase.
  by rewrite char_toLowerCase_idempotent, IH.
Qed.

Lemma Headers_append_all_size properties
    (store store' : gmap string (string * list string)) :
  Headers_append_all store properties = Normal store' →
  (size store' ≤ size store + length properties)%nat.
Proof.
  revert store. induction properties as [|[name value] rest IH];
    intros store; cbn.
  - intros [= <-]. lia.
  - destruct (Headers_append store name value) as [store1|] eqn:Happend;
      [|done].
    intros Hrest%IH.
    assert (size store1 ≤ S (size store))%nat; [|lia].
    revert Happend. unfold Headers_append.
    destruct (legal_name name); [|done].
    destruct (legal_value value); [|done]. cbn. intros [= <-].
    destruct (store !! toLowerCase name) as [[first values]|] eqn:Hstore.
    + rewrite map_size_insert_Some by done. lia.
    + rewrite map_size_insert_None by done. lia.
Qed.

(** X2: whenever header translation succeeds, the container it gives has
    no name twice, has every name in lower case, and has at most as many
    entries as the native mapping has keys. *)
Theorem createRemixHeaders_entries (h : gmap string HeaderValue) headers :
  createRemixHeaders h = Normal headers →
  NoDup (Headers_entries headers).*1
  ∧ (∀ name text,
       (name, text) ∈ Headers_entries headers → toLowerCase name = name)
  ∧ (length (Headers_entries headers) ≤ size h)%nat.
Proof.
  rewrite createRemixHeaders_unfold. intros Hnew.
  split; [by eapply Headers_new_NoDup|].
  unfold Headers_new in Hnew.
  destruct (Headers_append_all ∅ _) as [store|] eqn:Hall; [|done].
  injection Hnew as <-. split.
  - intros name text
      (key & first & values & _ & -> & _)%Headers_of_store_entries.
    apply toLowerCase_idempotent.
  - assert (Hkeyed : map_Forall (λ key p, toLowerCase p.1 = key) store).
    { eapply Headers_append_all_keyed; [|done]. apply map_Forall_empty. }
    rewrite <- (length_fmap fst), (Headers_of_store_names _ Hkeyed).
    rewrite length_fmap, length_map_to_list.
    apply Headers_append_all_size in Hall.
    rewrite length_map_to_list, map_size_empty in Hall.
    etrans; [exact Hall|]. cbn.
    rewrite <- !(size_dom (D := gset string)).
    apply subseteq_size. etrans; [apply dom_omap_subseteq|].
    rewrite dom_delete_L. set_solver.
Qed.

Lemma createRemixHeaders_entries_witness :
  createRemixHeaders {[ "X-A" := HString "1"; "x-b" := HString "2" ]}
  = Normal (mkHeaders [("x-a", "1"); ("x-b", "2")])
  ∧ NoDup ["x-a"; "x-b"].
Proof.
  assert (Hrun :
            createRemixHeaders {[ "X-A" := HString "1"; "x-b" := HString "2" ]}
            = Normal (mkHeaders [("x-a", "1"); ("x-b", "2")]))
    by (vm_compute; reflexivity).
  split; [exact Hrun|].
  exact (proj1 (createRemixHeaders_entries _ _ Hrun)).
Defined.

(** ** Further properties of response emission, continued *)

(** X10: when the header container of the response was built from a plain
    object with legal lower-case names and legal values, then, on a
    response object whose head is still to go out and whatever the body
    is, a name of the object reads afterwards as the object's value for it
    (with the charset Express adds, for [content-type]), and any other name
    as it read before. *)
Theorem sendRemixResponse_headers_from_object `{Imports}
    response (m : gmap string string) headers res :
  lower_legal m = true →
  Headers_new m = Normal headers →
  response_headers response = headers →
  res_head res = None →
  entries_ok (Headers_entries headers) = true →
  ∀ name,
    res_headers (sendRemixResponse response res).1 !! name =
      match m !! name with
      | Some value =>
          Some (if String.eqb name "content-type"
                then Express_contentType value else value)
      | None => res_headers res !! name
      end.
Proof.
  intros Hlegal Hnew Hheaders Hhead Hok name. subst headers.
  destruct (Headers_new_lower m Hlegal) as (headers' & Hnew' & Hnodup & Hin).
  rewrite Hnew in Hnew'. injection Hnew' as <-.
  set (headers := response_headers response) in *.
  assert (Hlower : ∀ key, key ∈ (Headers_entries headers).*1 →
            toLowerCase key = key ∧ is_Some (m !! key)).
  { intros key ([key' value] & -> & Hentry%Hin)%list_elem_of_fmap. cbn.
    by destruct (lower_legal_lookup _ _ _ Hlegal Hentry) as (_ & ? & _). }
  assert (Hset : res_headers (sendRemixResponse response res).1
                 = set_all (Headers_entries headers) (res_headers res)).
  { rewrite sendRemixResponse_open by done. unfold emitted.
    destruct (response_body response); cbn; try done.
    by destruct ((100 <=? response_status response)
                 && (response_status response <=? 999)). }
  rewrite Hset. unfold set_all.
  destruct (m !! name) as [value|] eqn:Hname.
  - destruct (lower_legal_lookup _ _ _ Hlegal Hname) as (_ & Hidem & _).
    apply Hin, list_elem_of_split in Hname as (before & after & Hsplit).
    rewrite Hsplit. rewrite <- Hidem at 1.
    rewrite (insert_all_last toLowerCase stored_value).
    + unfold stored_value. by rewrite Hidem.
    + rewrite Hidem. intros (key & -> & Hkey)%list_elem_of_fmap.
      rewrite Hsplit, fmap_app, fmap_cons in Hnodup, Hlower.
      destruct (Hlower key) as [Hkeyidem _].
      { apply elem_of_app. right. by apply list_elem_of_further. }
      apply NoDup_app in Hnodup as (_ & _ & Hnodup).
      apply NoDup_cons in Hnodup as [Hnotin _]. cbn in Hnotin.
      rewrite Hkeyidem in Hnotin. done.
  - apply (insert_all_untouched toLowerCase stored_value).
    intros (key & -> & Hkey)%list_elem_of_fmap.
    destruct (Hlower key Hkey) as [Hidem [value Hvalue]].
    rewrite Hidem in Hname. congruence.
Qed.

Lemma sendRemixResponse_headers_from_object_witness :
  let page :=
    {| response_status := 200;
       response_headers :=
         mkHeaders [("content-type", "text/html"); ("etag", "abc")];
       response_body := BodyBuffer [] |} in
  let res' := (@sendRemixResponse origin_imports page fresh_response).1 in
  Headers_new {[ "content-type" := "text/html"; "etag" := "abc" ]}
  = Normal (response_headers page)
  ∧ res_headers res' !! "content-type" = Some "text/html; charset=utf-8"
  ∧ res_headers res' !! "etag" = Some "abc"
  ∧ res_headers res' !! "server" = None.
Proof.
  intros page res'.
  assert (Hnew :
            Headers_new {[ "content-type" := "text/html"; "etag" := "abc" ]}
            = Normal (response_headers page)) by (vm_compute; reflexivity).
  split; [exact Hnew|].
  assert (Hlegal :
            lower_legal {[ "content-type" := "text/html"; "etag" := "abc" ]}
            = true) by (vm_compute; reflexivity).
  assert (Hok : @entries_ok origin_imports
                  (Headers_entries (response_headers page)) = true)
    by (vm_compute; reflexivity).
  pose proof (@sendRemixResponse_headers_from_object origin_imports page
                _ _ fresh_response Hlegal Hnew eq_refl eq_refl Hok)
    as Hread.
  split; [exact (Hread "content-type")|].
  split; [exact (Hread "etag") | exact (Hread "server")].
Defined.

(** ** Further properties of the middleware callback *)

(** X11: when the framework handler answers with a buffered response,
    and no head has gone out on the response object the load context step
    left, and [res.set] accepts the entries: if Node accepts the status,
    the callback leaves the reply complete on that response object (status
    and headers of the response, the head gone out with them, the buffer
    appended, the response closed) and [next] is not called; if it does
    not, nothing goes out and [next] gets the [RangeError]. *)
Theorem createRequestHandler_sends_buffer `{Imports}
    env options req w res1 response bytes :
  answers env options req (world_res w) res1 response →
  response_body response = BodyBuffer bytes →
  res_head res1 = None →
  entries_ok (Headers_entries (response_headers response)) = true →
  let headers :=
    set_all (Headers_entries (response_headers response))
            (res_headers res1) in
  (100 ≤ response_status response ≤ 999 →
   createRequestHandler env options req w =
     ({| world_res :=
           {| res_statusCode := response_status response;
              res_headers := headers;
              res_head := Some (response_status response, headers);
              res_written := res_written res1 ++ bytes;
              res_ended := true;
              res_piped := res_piped res1 |};
         world_next := world_next w |}, Fulfilled tt))
  ∧ (¬ 100 ≤ response_status response ≤ 999 →
     ∃ message,
       createRequestHandler env options req w =
         ({| world_res :=
               {| res_statusCode := response_status response;
                  res_headers := headers;
                  res_head := None;
                  res_written := res_written res1;
                  res_ended := res_ended res1;
                  res_piped := res_piped res1 |};
             world_next := world_next w ++ [JsError "RangeError" message] |},
          Fulfilled tt)).
Proof.
  intros Hanswers Hbody Hhead Hok headers.
  rewrite createRequestHandler_unfold.
  rewrite (try_block_answers _ _ _ _ _ _ Hanswers).
  rewrite sendRemixResponse_open, Hbody by done. split.
  - intros [Hlow%Z.leb_le Hhigh%Z.leb_le]. rewrite Hlow, Hhigh. cbn.
    unfold emitted. by rewrite Hbody.
  - intros Hrange.
    destruct ((100 <=? response_status response)
              && (response_status response <=? 999)) eqn:Htest.
    + exfalso. apply Hrange.
      apply andb_true_iff in Htest as [?%Z.leb_le ?%Z.leb_le]. lia.
    + by eexists.
Qed.

Lemma createRequestHandler_sends_buffer_witness :
  @createRequestHandler origin_imports ∅ (only_build not_found_build)
    get_foo fresh_world
  = ({| world_res :=
          {| res_statusCode := 404; res_headers := ∅;
             res_head := Some (404, ∅); res_written := [];
             res_ended := true; res_piped := [] |};
        world_next := [] |}, Fulfilled tt).
Proof.
  assert (Hanswers :
            @answers origin_imports ∅ (only_build not_found_build) get_foo
              fresh_response fresh_response not_found).
  { eapply answers_fulfilled;
      [vm_compute; reflexivity | by eapply load_context_other | reflexivity]. }
  destruct (@createRequestHandler_sends_buffer origin_imports ∅
              (only_build not_found_build) get_foo fresh_world
              fresh_response not_found [] Hanswers eq_refl eq_refl eq_refl)
    as [Hsent _].
  apply Hsent. cbn. lia.
Defined.

(** X12: when the framework handler answers with a response whose body is
    null, and no head has gone out on the response object the load context
    step left, and [res.set] accepts the entries, the status and the
    headers of that response are on the response object when the
    [TypeError] of the failed pipe is passed to [next]; nothing is written
    and the response is left open. *)
Theorem createRequestHandler_null_body `{Imports}
    env options req w res1 response :
  answers env options req (world_res w) res1 response →
  response_body response = BodyNull →
  res_head res1 = None →
  entries_ok (Headers_entries (response_headers response)) = true →
  ∃ message,
    createRequestHandler env options req w =
      ({| world_res :=
            {| res_statusCode := response_status response;
               res_headers :=
                 set_all (Headers_entries (response_headers response))
                         (res_headers res1);
               res_head := None;
               res_written := res_written res1;
               res_ended := res_ended res1;
               res_piped := res_piped res1 |};
          world_next := world_next w ++ [JsError "TypeError" message] |},
       Fulfilled tt).
Proof.
  intros Hanswers Hbody Hhead Hok.
  rewrite createRequestHandler_unfold.
  rewrite (try_block_answers _ _ _ _ _ _ Hanswers).
  rewrite sendRemixResponse_open, Hbody by done. by eexists.
Qed.

Lemma createRequestHandler_null_body_witness :
  ∃ w' message,
    @createRequestHandler origin_imports ∅ (only_build no_content_build)
      get_foo fresh_world = (w', Fulfilled tt)
    ∧ world_next w' = [JsError "TypeError" message]
    ∧ res_statusCode (world_res w') = 204
    ∧ res_headers (world_res w') !! "x-powered-by" = Some "remix"
    ∧ res_ended (world_res w') = false.
Proof.
  assert (Hanswers :
            @answers origin_imports ∅ (only_build no_content_build) get_foo
              fresh_response fresh_response no_content).
  { eapply answers_fulfilled;
      [vm_compute; reflexivity | by eapply load_context_other | reflexivity]. }
  destruct (@createRequestHandler_null_body origin_imports ∅
              (only_build no_content_build) get_foo fresh_world
              fresh_response no_content Hanswers eq_refl eq_refl eq_refl)
    as [message Hrun].
  eexists _, message. split; [exact Hrun|]. repeat split.
Defined.

(** X13: when both [mode] and [serverTiming] are given, the environment
    plays no part: the callback behaves the same under any two
    environments. *)
Theorem createRequestHandler_explicit_options `{Imports}
    env env' options m b req w :
  mode options = Some m →
  serverTiming options = Some b →
  createRequestHandler env options req w
  = createRequestHandler env' options req w.
Proof.
  intros Hmode Htiming.
  assert (Hsame : handleRequest env options = handleRequest env' options).
  { unfold handleRequest. by rewrite Hmode, Htiming. }
  unfold createRequestHandler, try_block.
  by rewrite Hsame.
Qed.

Lemma createRequestHandler_explicit_options_witness :
  @createRequestHandler reporting_imports
    {[ "NODE_ENV" := "production"; "REMIX_SERVER_TIMING" := "1" ]}
    (@mkOptions reporting_imports tt (LoadContextValue JsUndefined)
       (Some "development") (Some false))
    get_foo fresh_world
  = @createRequestHandler reporting_imports ∅
      (@mkOptions reporting_imports tt (LoadContextValue JsUndefined)
         (Some "development") (Some false))
      get_foo fresh_world.
Proof.
  by eapply (@createRequestHandler_explicit_options reporting_imports).
Defined.

(** X14: when [serverTiming] is left out, the handler is bound with timing
    on exactly when [REMIX_SERVER_TIMING] is set to a string that is not
    empty, whatever the string says; [mode], when left out, is
    [NODE_ENV], or undefined when that is not set. *)
Theorem handleRequest_defaults `{Imports} env options :
  mode options = None →
  serverTiming options = None →
  ∃ timing,
    handleRequest env options
    = createRemixRequestHandler (build options) (env !! "NODE_ENV") timing
    ∧ (timing = true
       ↔ ∃ value, env !! "REMIX_SERVER_TIMING" = Some value ∧ value ≠ "").
Proof.
  intros Hmode Htiming. exists (env_flag env "REMIX_SERVER_TIMING"). split.
  - unfold handleRequest. by rewrite Hmode, Htiming.
  - unfold env_flag.
    destruct (env !! "REMIX_SERVER_TIMING") as [value|]; cbn.
    + rewrite negb_true_iff, String.eqb_neq. split; [eauto|].
      by intros (v & [= <-] & Hne).
    + split; [done|]. by intros (v & Hv & _).
Qed.

Lemma handleRequest_defaults_witness :
  @handleRequest reporting_imports {[ "REMIX_SERVER_TIMING" := "false" ]}
    (@mkOptions reporting_imports tt (LoadContextValue JsUndefined) None None)
  = @createRemixRequestHandler reporting_imports tt None true.
Proof.
  destruct (@handleRequest_defaults reporting_imports
              {[ "REMIX_SERVER_TIMING" := "false" ]}
              (@mkOptions reporting_imports tt (LoadContextValue JsUndefined)
                 None None) eq_refl eq_refl)
    as (timing & Hbound & Htiming).
  rewrite Hbound. f_equal. apply Htiming. by exists "false".
Defined.
